(** * Rigid-body L-systems: the grammar engine and the turtle interpreter

    A shallow embedding of [Anglerandom.py] (class [LSystem]) and the
    properties its specification states about it.

    Python [str] values are Rocq [string]s over the ASCII alphabet, a
    character being a string of length one, as in Python.  Python [dict]s
    keyed by strings are [gmap string _].  Python [int] indices are [Z]. *)

From Stdlib Require Import ZArith String Ascii Lia.
From stdpp Require Import base option list gmap strings.

Local Open Scope string_scope.
Local Open Scope list_scope.
Local Open Scope Z_scope.

(** ** Python string primitives *)

Module PyStr.

(** A one-character [str]. *)
Definition chr (c : ascii) : string := String c EmptyString.

(** [for char in s]: the characters of [s], each a one-character [str]. *)
Fixpoint chars (s : string) : list string :=
  match s with
  | EmptyString => []
  | String c s' => chr c :: chars s'
  end.

(** [''.join(parts)]. *)
Definition join (parts : list string) : string :=
  foldr String.append EmptyString parts.

(** [len(s)] as a Python integer. *)
Definition len (s : string) : Z := Z.of_nat (String.length s).

Fixpoint drop (n : nat) (s : string) : string :=
  match n, s with
  | O, _ => s
  | S n', String _ s' => drop n' s'
  | S _, EmptyString => EmptyString
  end.

Fixpoint take (n : nat) (s : string) : string :=
  match n, s with
  | S n', String c s' => String c (take n' s')
  | _, _ => EmptyString
  end.

(** [s[i:j]] for [0 <= i] and [0 <= j] (the only slices the program takes). *)
Definition slice (s : string) (i j : Z) : string :=
  take (Z.to_nat (j - i)) (drop (Z.to_nat i) s).

(** [s[i]]; [None] stands for Python's [IndexError].  A negative index
    counts from the end, as in Python. *)
Definition item (s : string) (i : Z) : option string :=
  let i' := if i <? 0 then i + len s else i in
  if i' <? 0 then None
  else match String.get (Z.to_nat i') s with
       | Some c => Some (chr c)
       | None => None
       end.

(** Offset of the first [c] in [s], if any. *)
Fixpoint first_index (c : ascii) (s : string) : option nat :=
  match s with
  | EmptyString => None
  | String c' s' =>
      if Ascii.eqb c' c then Some O else S <$> first_index c s'
  end.

(** [s.find(c, start)] for [0 <= start]: the lowest index [>= start]
    holding [c], or [-1]. *)
Definition find (s : string) (c : ascii) (start : Z) : Z :=
  match first_index c (drop (Z.to_nat start) s) with
  | Some k => start + Z.of_nat k
  | None => -1
  end.

End PyStr.
Import PyStr.

(** ** The grammar engine: [replace], [replaceProcess], [generate] *)

(** [self.rules.get(char, char)] *)
Definition replace (rules : gmap string string) (char : string) : string :=
  default char (rules !! char).

(** [''.join(self.replace(char) for char in oldStr)] *)
Definition replaceProcess (rules : gmap string string) (oldStr : string) : string :=
  join (replace rules <$> chars oldStr).

(** The body of [generate]: [n] rounds of the [for] loop, threading
    [oldStr] and the list [self.resultStrs] that is appended to. *)
Fixpoint generate_loop (n : nat) (rules : gmap string string)
    (oldStr : string) (resultStrs : list string) : list string :=
  match n with
  | O => resultStrs
  | S n' =>
      let newStr := replaceProcess rules oldStr in
      generate_loop n' rules newStr (resultStrs ++ [newStr])
  end.

(** [generate], run on the [resultStrs = [startStr]] that [__init__] sets
    up; [range(numIters)] is empty for [numIters <= 0]. *)
Definition generate (numIters : Z) (startStr : string)
    (rules : gmap string string) : list string :=
  generate_loop (Z.to_nat numIters) rules startStr [startStr].

(** ** The pattern of [extract_value]

    [re.match(r'([A-Za-z\+\-\&\^<>\|])\(([\d\.]+)(?:,([\d\.]+))?\)', s)]
    anchors at the start of [s] only.  After the symbol and the opening
    parenthesis, [[\d\.]+] takes the longest run of digits and dots; giving
    back part of the run never helps, because the next pattern item is a
    comma or a closing parenthesis and the character after a shorter run is
    a digit or a dot.  So the match is found without backtracking. *)

Module Re.

Definition in_range (lo hi : ascii) (c : ascii) : bool :=
  (nat_of_ascii lo <=? nat_of_ascii c)%nat
  && (nat_of_ascii c <=? nat_of_ascii hi)%nat.

(** [\d] *)
Definition is_digit (c : ascii) : bool := in_range "0" "9" c.

(** [[\d\.]] *)
Definition is_num_char (c : ascii) : bool :=
  is_digit c || Ascii.eqb c ".".

(** [[A-Za-z\+\-\&\^<>\|]] *)
Definition is_symbol_char (c : ascii) : bool :=
  in_range "A" "Z" c || in_range "a" "z" c
  || Ascii.eqb c "+" || Ascii.eqb c "-" || Ascii.eqb c "&"
  || Ascii.eqb c "^" || Ascii.eqb c "<" || Ascii.eqb c ">"
  || Ascii.eqb c "|".

(** The longest prefix of [s] whose characters satisfy [p], and the rest. *)
Fixpoint span (p : ascii → bool) (s : string) : string * string :=
  match s with
  | String c s' =>
      if p c then let (a, b) := span p s' in (String c a, b)
      else (EmptyString, s)
  | EmptyString => (EmptyString, EmptyString)
  end.

Definition nonempty (s : string) : bool :=
  match s with EmptyString => false | String _ _ => true end.

Fixpoint all_chars (p : ascii → bool) (s : string) : bool :=
  match s with
  | EmptyString => true
  | String c s' => p c && all_chars p s'
  end.

(** A text that [[\d\.]+] matches whole: one or more digits and dots. *)
Definition numeric_text (s : string) : bool :=
  nonempty s && all_chars is_num_char s.

(** The groups [(group(1), group(2), group(3))] of a successful match. *)
Definition re_match (s : string) : option (string * string * option string) :=
  match s with
  | String c (String "(" rest) =>
      if is_symbol_char c then
        let (g2, rest2) := span is_num_char rest in
        if nonempty g2 then
          match rest2 with
          | String ")" _ => Some (chr c, g2, None)
          | String "," rest3 =>
              let (g3, rest4) := span is_num_char rest3 in
              if nonempty g3 then
                match rest4 with
                | String ")" _ => Some (chr c, g2, Some g3)
                | _ => None
                end
              else None
          | _ => None
          end
        else None
      else None
  | _ => None
  end.

End Re.
Import Re.

(** ** The host environment

    [Anglerandom.py] computes with Python floats and calls into [math],
    [random], [mathutils] and [bpy].  None of these is code of the
    repository; the interpreter is embedded over an interface that names
    exactly the operations it calls. *)

Record Vector (A : Type) := mkVector { vx : A; vy : A; vz : A }.
Arguments mkVector {A} _ _ _.
Arguments vx {A} _.
Arguments vy {A} _.
Arguments vz {A} _.

(** [mathutils.Euler((x, y, z), 'XYZ')] *)
Record Euler (A : Type) := mkEuler { ex : A; ey : A; ez : A }.
Arguments mkEuler {A} _ _ _.
Arguments ex {A} _.
Arguments ey {A} _.
Arguments ez {A} _.

Class Host := {
  (** Python [float] *)
  Float : Type;
  (** an [int] literal used where a float is expected *)
  float_of_Z : Z → Float;
  fadd : Float → Float → Float;
  fmul : Float → Float → Float;
  fneg : Float → Float;
  (** [math.pi], [math.radians] *)
  math_pi : Float;
  math_radians : Float → Float;
  (** [float(text)]; [None] is [ValueError] *)
  parse_float : string → option Float;
  (** [v.rotate(euler)], as the rotated value of [v] *)
  vector_rotate : Euler Float → Vector Float → Vector Float;
  (** the state of the generator behind the [random] module *)
  Rng : Type;
  (** [random.seed(n)] *)
  seed_rng : Z → Rng;
  (** [random.uniform(a, b)] *)
  random_uniform : Float → Float → Rng → Float * Rng;
  (** a mesh template object of [bpy.data.objects] *)
  Mesh : Type
}.

Section Interpreter.
Context `{Host}.

(** [Vector + Vector] and [Vector * float], componentwise. *)
Definition vadd (a b : Vector Float) : Vector Float :=
  mkVector (fadd (vx a) (vx b)) (fadd (vy a) (vy b)) (fadd (vz a) (vz b)).

Definition vscale (a : Vector Float) (k : Float) : Vector Float :=
  mkVector (fmul (vx a) k) (fmul (vy a) k) (fmul (vz a) k).

(** *** What the program does to the scene

    [create_sphere], [create_edge_mesh] and [add_mesh_instance] each add one
    object to the Blender scene; the scene is the list of these objects in
    creation order. *)
Inductive Command :=
| StartMarker (location : Vector Float)
| LineSegment (start end_ : Vector Float)
| InstancePlacement (symbol : string) (mesh : Mesh)
    (location : Vector Float) (rotation : Euler Float).

(** The state outside [draw]'s locals: the generator of [random] (a module
    global) and the scene. *)
Record World := mkWorld { rng : Rng; scene : list Command }.

(** Python exceptions the program can raise. *)
Inductive exn := IndexError | ValueError | KeyError | AttributeError.

(** A computation ends by returning, by raising, or (for the [while] loop,
    which is run on fuel) by using up its fuel. *)
Inductive outcome (A : Type) :=
| Return (a : A) (w : World)
| Raise (e : exn) (w : World)
| Timeout (w : World).
Arguments Return {A} _ _.
Arguments Raise {A} _ _.
Arguments Timeout {A} _.

Definition M (A : Type) : Type := World → outcome A.

Definition ret {A} (a : A) : M A := λ w, Return a w.

Definition bind {A B} (m : M A) (k : A → M B) : M B :=
  λ w, match m w with
       | Return a w' => k a w'
       | Raise e w' => Raise e w'
       | Timeout w' => Timeout w'
       end.

Definition raise {A} (e : exn) : M A := λ w, Raise e w.
Definition timeout {A} : M A := λ w, Timeout w.

Local Notation "x ← m ; k" := (bind m (λ x, k))
  (at level 20, m at level 100, k at level 200, only parsing).
Local Notation "' p ← m ; k" := (bind m (λ x, match x with p => k end))
  (at level 20, p pattern, m at level 100, k at level 200, only parsing).
Local Notation "m ;; k" := (bind m (λ _, k))
  (at level 100, k at level 200, right associativity, only parsing).

Definition emit (c : Command) : M unit :=
  λ w, Return tt (mkWorld (rng w) (scene w ++ [c])).

Definition uniform (a b : Float) : M Float :=
  λ w, let (r, g) := random_uniform a b (rng w) in
       Return r (mkWorld g (scene w)).

Definition float (text : string) : M Float :=
  match parse_float text with
  | Some v => ret v
  | None => raise ValueError
  end.

(** [s[i]] as a computation. *)
Definition getitem (s : string) (i : Z) : M string :=
  match item s i with
  | Some c => ret c
  | None => raise IndexError
  end.

(** *** [extract_value] *)

Definition extract_value (instruction : string) : M (string * option Float) :=
  match re_match instruction with
  | Some (symbol, group2, Some group3) =>
      min_angle ← float group2;
      max_angle ← float group3;
      random_angle ← uniform min_angle max_angle;
      ret (symbol, Some random_angle)
  | Some (symbol, group2, None) =>
      v ← float group2;
      ret (symbol, Some v)
  | None => ret (instruction, None)
  end.

(** *** The [LSystem] object

    The fields [vertices], [edges], [faces], [vertex_index] and
    [mesh_objects] are never read and are left out.  A value of
    [mesh_dict] is a mesh object or Python's [None], which [__main__]
    binds to both keys when the scene lacks one of the objects;
    [None.copy()] in [add_mesh_instance] raises [AttributeError]. *)
Record LSystem := mkLSystem {
  numIters : Z;
  startStr : string;
  rules : gmap string string;
  step_length : Float;
  default_angle : Float;
  resultStrs : list string;
  mesh_dict : gmap string (option Mesh)
}.

(** [LSystem.__init__].  [random.seed(random_seed)] replaces the state of
    the generator; [random.seed()] takes it from the operating system,
    here the argument [entropy]. *)
Definition LSystem_init (numIters : Z) (startStr : string)
    (rules : gmap string string) (step_length default_angle : Float)
    (mesh_dict : gmap string (option Mesh)) (random_seed : option Z)
    (entropy : Rng) : M LSystem :=
  λ w,
    let g := match random_seed with
             | Some n => seed_rng n
             | None => entropy
             end in
    Return
      (mkLSystem numIters startStr rules step_length default_angle
         (generate numIters startStr rules) mesh_dict)
      (mkWorld g (scene w)).

(** *** The turtle

    The locals [location], [direction] and [stack] of [draw].  Every
    vector that leaves the locals is copied on the way ([location.copy()]
    on push; Blender copies coordinates into the objects it creates), so
    the in-place updates ([location += ...], [direction.rotate(...)]) are
    seen by nothing else and the locals are modelled as values.  The top
    of [stack] (the last element of the Python list) is the head. *)
Record Turtle := mkTurtle {
  location : Vector Float;
  direction : Vector Float;
  stack : list (Vector Float * Vector Float)
}.

Definition create_sphere (location : Vector Float) : M unit :=
  emit (StartMarker location).

Definition add_line (start end_ : Vector Float) : M unit :=
  emit (LineSegment start end_).

Definition two_pi : Float := fmul (float_of_Z 2) math_pi.

Definition add_mesh_instance (self : LSystem) (symbol : string)
    (location direction : Vector Float) : M unit :=
  match mesh_dict self !! symbol with
  | Some (Some mesh) =>
      rx ← uniform (float_of_Z 0) two_pi;
      ry ← uniform (float_of_Z 0) two_pi;
      rz ← uniform (float_of_Z 0) two_pi;
      emit (InstancePlacement symbol mesh location (mkEuler rx ry rz))
  | Some None => raise AttributeError
  | None => raise KeyError
  end.

(** The dictionary [rotations] of [rotate_direction]. *)
Definition rotations (angle : Float) : gmap string (Euler Float) :=
  let zero := float_of_Z 0 in
  list_to_map
    [ ("+", mkEuler zero zero angle);
      ("-", mkEuler zero zero (fneg angle));
      ("&", mkEuler angle zero zero);
      ("^", mkEuler (fneg angle) zero zero);
      ("<", mkEuler zero angle zero);
      (">", mkEuler zero (fneg angle) zero);
      ("|", mkEuler zero zero math_pi) ].

(** [rotate_direction]; returns the value of [direction] after the call. *)
Definition rotate_direction (self : LSystem) (symbol : string)
    (direction : Vector Float) (value : option Float) : Vector Float :=
  let angle := math_radians (default (default_angle self) value) in
  match rotations angle !! symbol with
  | Some euler => vector_rotate euler direction
  | None => direction
  end.

(** The [if]/[elif] chain of [draw], on one [(symbol, value)]. *)
Definition dispatch (self : LSystem) (symbol : string) (value : option Float)
    (t : Turtle) : M Turtle :=
  if decide (is_Some (mesh_dict self !! symbol)) then
    add_mesh_instance self symbol (location t) (direction t);;
    ret t
  else if String.eqb symbol "F" then
    let step := default (step_length self) value in
    let new_location := vadd (location t) (vscale (direction t) step) in
    add_line (location t) new_location;;
    ret (mkTurtle new_location (direction t) (stack t))
  else if String.eqb symbol "f" then
    let step := default (step_length self) value in
    ret (mkTurtle (vadd (location t) (vscale (direction t) step))
           (direction t) (stack t))
  else if String.eqb symbol "[" then
    ret (mkTurtle (location t) (direction t)
           ((location t, direction t) :: stack t))
  else if String.eqb symbol "]" then
    match stack t with
    | (location', direction') :: stack' =>
        ret (mkTurtle location' direction' stack')
    | [] => raise IndexError
    end
  else
    ret (mkTurtle (location t)
           (rotate_direction self symbol (direction t) value) (stack t)).

(** The instruction at [index] and the index of its last character: the
    first four statements of the [while] body. *)
Definition fetch (rule : string) (index : Z) : M (string * Z) :=
  instruction ← getitem rule index;
  if (index + 2 <? len rule)
     && bool_decide (item rule (index + 1) = Some "(") then
    let end_index := find rule ")" index in
    ret (slice rule index (end_index + 1), end_index)
  else ret (instruction, index).

(** One round of the [while] loop. *)
Definition step (self : LSystem) (rule : string) (index : Z) (t : Turtle)
    : M (Z * Turtle) :=
  '(instruction, index) ← fetch rule index;
  '(symbol, value) ← extract_value instruction;
  t' ← dispatch self symbol value t;
  ret (index + 1, t').

(** [while index < len(rule): ...], at most [fuel] rounds. *)
Fixpoint while_loop (fuel : nat) (self : LSystem) (rule : string)
    (index : Z) (t : Turtle) : M Turtle :=
  if index <? len rule then
    match fuel with
    | O => timeout
    | S fuel' =>
        '(index', t') ← step self rule index t;
        while_loop fuel' self rule index' t'
    end
  else ret t.

(** [for rule in self.resultStrs: index = 0; while ...] *)
Fixpoint for_rules (fuel : nat) (self : LSystem) (strs : list string)
    (t : Turtle) : M Turtle :=
  match strs with
  | [] => ret t
  | rule :: rest =>
      t' ← while_loop fuel self rule 0 t;
      for_rules fuel self rest t'
  end.

Definition origin : Vector Float :=
  mkVector (float_of_Z 0) (float_of_Z 0) (float_of_Z 0).

Definition initial_turtle : Turtle :=
  mkTurtle origin
    (mkVector (float_of_Z 0) (float_of_Z 1) (float_of_Z 0)) [].

(** [draw]; the result is the value of the locals when the method ends.
    Each [while] loop gets [fuel] rounds. *)
Definition draw (fuel : nat) (self : LSystem) : M Turtle :=
  create_sphere (location initial_turtle);;
  for_rules fuel self (resultStrs self) initial_turtle.

(** *** Instruction sequences

    The rounds of the [while] loop after the fetch, on a list of
    instructions that has been fetched already. *)
Fixpoint interpret (self : LSystem) (instructions : list string)
    (t : Turtle) : M Turtle :=
  match instructions with
  | [] => ret t
  | instruction :: rest =>
      '(symbol, value) ← extract_value instruction;
      t' ← dispatch self symbol value t;
      interpret self rest t'
  end.

(** [float] answers on every numeric group of the instruction. *)
Definition parseable (instruction : string) : bool :=
  match re_match instruction with
  | Some (_, group2, group3) =>
      bool_decide (is_Some (parse_float group2))
      && from_option (λ g, bool_decide (is_Some (parse_float g))) true group3
  | None => true
  end.

(** No key of [mesh_dict] is bound to [None]. *)
Definition meshes_loaded (self : LSystem) : Prop :=
  ∀ k, mesh_dict self !! k ≠ Some None.

(** The world an outcome leaves. *)
Definition world_of {A} (o : outcome A) : World :=
  match o with
  | Return _ w | Raise _ w | Timeout w => w
  end.

Definition is_marker (c : Command) : bool :=
  match c with
  | StartMarker _ => true
  | _ => false
  end.

(** [w'] is [w] with more objects, none of them a start marker. *)
Definition extends (w w' : World) : Prop :=
  ∃ cmds, scene w' = scene w ++ cmds
          ∧ Forall (λ c, is_marker c = false) cmds.

(** A computation that only adds such objects. *)
Definition grows {A} (m : M A) : Prop :=
  ∀ w, extends w (world_of (m w)).

(** Construction followed by a full drawing pass, on an empty scene. *)
Definition run (fuel : nat) (numIters : Z) (startStr : string)
    (rules : gmap string string) (step_length default_angle : Float)
    (mesh_dict : gmap string (option Mesh)) (random_seed : option Z)
    (entropy : Rng) : M Turtle :=
  self ← LSystem_init numIters startStr rules step_length default_angle
           mesh_dict random_seed entropy;
  draw fuel self.

End Interpreter.

Arguments Return {_ _} _ _.
Arguments Raise {_ _} _ _.
Arguments Timeout {_ _} _.

(** ** The instructions of a generation string

    [fetched rule index] is the instruction the [while] loop takes at
    [index] and the index of its last character ([-1] when a parameter list
    is not closed and [find] fails); [None] is the [IndexError] of
    [rule[index]]. *)
Definition fetched (rule : string) (index : Z) : option (string * Z) :=
  instruction ← item rule index;
  if (index + 2 <? len rule)
     && bool_decide (item rule (index + 1) = Some "(") then
    let end_index := find rule ")" index in
    Some (slice rule index (end_index + 1), end_index)
  else Some (instruction, index).

(** The walk of [index] through [rule] that the loop makes, without the
    turtle: the list of the instructions fetched from [index] on.  The
    answer is [None] when a parameter list is not closed (the loop then
    goes back to the start of the string) or when the fuel runs out. *)
Fixpoint walk (fuel : nat) (rule : string) (index : Z) : option (list string) :=
  if index <? len rule then
    match fuel with
    | O => None
    | S fuel' =>
        match fetched rule index with
        | Some (instruction, index') =>
            if index' <? 0 then None
            else cons instruction <$> walk fuel' rule (index' + 1)
        | None => None
        end
    end
  else Some [].

Definition instructions (rule : string) : option (list string) :=
  walk (String.length rule) rule 0.

(** Every opening parenthesis has a closing one later in the string. *)
Fixpoint params_closed (s : string) : bool :=
  match s with
  | EmptyString => true
  | String c s' =>
      (if Ascii.eqb c "(" then bool_decide (is_Some (first_index ")" s'))
       else true)
      && params_closed s'
  end.

(** Bracket depth after a list of instructions, starting from [depth];
    [None] when a ["]"] comes at depth zero.  Only the instructions ["["]
    and ["]"] themselves count. *)
Fixpoint nesting (depth : nat) (instructions : list string) : option nat :=
  match instructions with
  | [] => Some depth
  | instruction :: rest =>
      if String.eqb instruction "[" then nesting (S depth) rest
      else if String.eqb instruction "]" then
        match depth with
        | O => None
        | S depth' => nesting depth' rest
        end
      else nesting depth rest
  end.

(** Equal counts of ["["] and ["]"] in valid nesting. *)
Definition balanced (instructions : list string) : Prop :=
  nesting 0 instructions = Some 0%nat.

(** The keys of the dictionary [rotations]. *)
Definition rotation_symbols : list string :=
  ["+"; "-"; "&"; "^"; "<"; ">"; "|"].


Section HostReadings.
Context `{Host}.



(** [Vector.rotate] with Euler angles that are zero but for one component
    turns about the axis of the world that the component names: the
    coordinate along that axis stays. *)
Definition rotates_about_world_axes : Prop :=
  let zero := float_of_Z 0 in
  (∀ a v, vx (vector_rotate (mkEuler a zero zero) v) = vx v)
  ∧ (∀ a v, vy (vector_rotate (mkEuler zero a zero) v) = vy v)
  ∧ (∀ a v, vz (vector_rotate (mkEuler zero zero a) v) = vz v).

End HostReadings.

(** ** A host to run examples on

    Scalars are integers, angles are degrees ([math_radians] is the
    identity, [math_pi] is 180), a rotation turns by whole quarter turns
    about the x, y and z axes of the world, in this order, as
    [Vector.rotate] does with Euler angles that are multiples of 90
    degrees, and the generator is a linear congruential one. *)
Module Grid.

Fixpoint digits (acc : Z) (s : string) : option Z :=
  match s with
  | EmptyString => Some acc
  | String c s' =>
      if is_digit c
      then digits (10 * acc + Z.of_nat (nat_of_ascii c) - 48) s'
      else None
  end.

Definition parse (s : string) : option Z :=
  if nonempty s then digits 0 s else None.

Definition turns (a : Z) : nat := Z.to_nat ((a / 90) mod 4).

Definition rot_x (v : Vector Z) : Vector Z := mkVector (vx v) (- vz v) (vy v).
Definition rot_y (v : Vector Z) : Vector Z := mkVector (vz v) (vy v) (- vx v).
Definition rot_z (v : Vector Z) : Vector Z := mkVector (- vy v) (vx v) (vz v).

Definition rotate (e : Euler Z) (v : Vector Z) : Vector Z :=
  Nat.iter (turns (ez e)) rot_z
    (Nat.iter (turns (ey e)) rot_y (Nat.iter (turns (ex e)) rot_x v)).

(** A quarter turn about a unit axis [k], by Rodrigues' formula at 90
    degrees, [k × v + k (k · v)]: the turn to compare with when the axis
    is one of the turtle's own frame. *)
Definition dot (u v : Vector Z) : Z :=
  vx u * vx v + vy u * vy v + vz u * vz v.

Definition cross (u v : Vector Z) : Vector Z :=
  mkVector (vy u * vz v - vz u * vy v) (vz u * vx v - vx u * vz v)
    (vx u * vy v - vy u * vx v).

Definition quarter_turn_about (k v : Vector Z) : Vector Z :=
  mkVector (vx (cross k v) + vx k * dot k v)
    (vy (cross k v) + vy k * dot k v) (vz (cross k v) + vz k * dot k v).

Definition next (g : Z) : Z := (g * 1103515245 + 12345) mod 2147483648.

Definition uniform (a b : Z) (g : Z) : Z * Z :=
  (a + next g mod Z.max 1 (b - a), next g).

#[export] Instance host : Host := {|
  Float := Z;
  float_of_Z := id;
  fadd := Z.add;
  fmul := Z.mul;
  fneg := Z.opp;
  math_pi := 180;
  math_radians := id;
  parse_float := parse;
  vector_rotate := rotate;
  Rng := Z;
  seed_rng := id;
  random_uniform := uniform;
  Mesh := string
|}.

(** An [LSystem] as [__init__] leaves it. *)
Definition lsystem (numIters : Z) (startStr : string)
    (rules : gmap string string) (step_length default_angle : Z)
    (mesh_dict : gmap string (option string)) : LSystem :=
  mkLSystem numIters startStr rules step_length default_angle
    (generate numIters startStr rules) mesh_dict.

Definition empty_world : World := mkWorld 7 [].

Definition registry : gmap string (option string) :=
  <["P" := Some "core"]> (<["L" := Some "LeafMesh"]> ∅).

(** An object whose one generation is the given string. *)
Definition single (rule : string) : LSystem :=
  lsystem 0 rule ∅ 1 30 registry.

End Grid.

(** ** Further notions for the statements about the whole interpreter *)

(** The number of elements of [l] that satisfy [p]. *)
Definition count {A} (p : A → bool) (l : list A) : nat :=
  length (List.filter p l).

(** The symbol [extract_value] returns for an instruction: group 1 of the
    match, or the instruction itself. *)
Definition symbol_of (instruction : string) : string :=
  match re_match instruction with
  | Some (symbol, _, _) => symbol
  | None => instruction
  end.

(** [c] does not occur in [s]. *)
Definition lacks (c : ascii) (s : string) : Prop := first_index c s = None.

Section Counting.
Context `{Host}.

Definition is_line (c : Command) : bool :=
  match c with
  | LineSegment _ _ => true
  | _ => false
  end.

Definition is_placement (c : Command) : bool :=
  match c with
  | InstancePlacement _ _ _ _ => true
  | _ => false
  end.

(** The instruction reaches the branch [symbol == "F"] of [draw]. *)
Definition draws_line (self : LSystem) (instruction : string) : bool :=
  bool_decide (mesh_dict self !! symbol_of instruction = None)
  && String.eqb (symbol_of instruction) "F".

(** The instruction reaches the branch [symbol in self.mesh_dict]. *)
Definition places (self : LSystem) (instruction : string) : bool :=
  bool_decide (is_Some (mesh_dict self !! symbol_of instruction)).

End Counting.

(** *** Grammar lemmas *)

Lemma append_nil_l (s : string) : "" +:+ s = s.
Proof. reflexivity. Qed.

Lemma append_cons (c : ascii) (s1 s2 : string) :
  String c s1 +:+ s2 = String c (s1 +:+ s2).
Proof. reflexivity. Qed.

Lemma append_nil_r (s : string) : s +:+ "" = s.
Proof. induction s as [|c s IH]; [done|]. by rewrite append_cons, IH. Qed.

Lemma append_assoc (s1 s2 s3 : string) :
  s1 +:+ (s2 +:+ s3) = (s1 +:+ s2) +:+ s3.
Proof.
  induction s1 as [|c s1 IH]; [done|]. by rewrite !append_cons, IH.
Qed.

Lemma join_app (l1 l2 : list string) :
  join (l1 ++ l2) = join l1 +:+ join l2.
Proof.
  induction l1 as [|x l1 IH]; simpl; [done|].
  rewrite IH. apply append_assoc.
Qed.

Lemma chars_app (s1 s2 : string) :
  chars (s1 +:+ s2) = chars s1 ++ chars s2.
Proof.
  induction s1 as [|c s1 IH]; [done|]. rewrite append_cons. simpl.
  by rewrite IH.
Qed.

Lemma replaceProcess_app rules (s1 s2 : string) :
  replaceProcess rules (s1 +:+ s2)
  = replaceProcess rules s1 +:+ replaceProcess rules s2.
Proof.
  unfold replaceProcess. by rewrite chars_app, fmap_app, join_app.
Qed.

Lemma replaceProcess_chr rules (c : ascii) :
  replaceProcess rules (chr c) = replace rules (chr c).
Proof.
  unfold replaceProcess. simpl. apply append_nil_r.
Qed.

Lemma generate_loop_spec n rules oldStr acc :
  generate_loop n rules oldStr acc
  = acc ++ ((λ k, Nat.iter k (replaceProcess rules) oldStr) <$> seq 1 n).
Proof.
  revert oldStr acc. induction n as [|n IH]; intros oldStr acc; simpl.
  - by rewrite app_nil_r.
  - rewrite IH, <- app_assoc. simpl. do 2 f_equal.
    rewrite <- !seq_shift, <- !list_fmap_compose.
    apply list_fmap_ext. intros _ k _. simpl.
    clear. induction k as [|k IHk]; simpl; [done|]. by rewrite IHk.
Qed.

Lemma generate_lookup numIters startStr rules (i : nat) :
  (i ≤ Z.to_nat numIters)%nat →
  generate numIters startStr rules !! i
  = Some (Nat.iter i (replaceProcess rules) startStr).
Proof.
  intros Hi. unfold generate. rewrite generate_loop_spec.
  destruct i as [|i]; [done|].
  simpl. rewrite list_lookup_fmap, lookup_seq_lt by lia. done.
Qed.

Lemma generate_length numIters startStr rules :
  length (generate numIters startStr rules) = S (Z.to_nat numIters).
Proof.
  unfold generate. rewrite generate_loop_spec. simpl.
  by rewrite length_fmap, length_seq.
Qed.

(** C1. Grammar engine correctness.  For every rule set, start string and
    [numIters >= 0]: the production sequence has generations [0..numIters];
    generation 0 is the start string; generation [i] is [replaceProcess] of
    generation [i-1]; [replaceProcess] rewrites one character by dictionary
    lookup with the character itself as default, and distributes over
    concatenation (every character is rewritten on its own, results joined
    left to right in the original order); and the rule set
    [{A: "AB", B: "A"}] with start ["A"] and three iterations gives
    [["A"; "AB"; "ABA"; "ABAAB"]]. *)
Theorem generate_correct (rules : gmap string string) (startStr : string)
    (numIters : Z) :
  0 ≤ numIters →
  let gens := generate numIters startStr rules in
  length gens = S (Z.to_nat numIters)
  ∧ gens !! 0%nat = Some startStr
  ∧ (∀ i : nat, (1 ≤ i ≤ Z.to_nat numIters)%nat →
       ∃ prev, gens !! (i - 1)%nat = Some prev
               ∧ gens !! i = Some (replaceProcess rules prev))
  ∧ (∀ c : ascii,
       replaceProcess rules (chr c)
       = match rules !! chr c with Some body => body | None => chr c end)
  ∧ (∀ s1 s2 : string,
       replaceProcess rules (s1 +:+ s2)
       = replaceProcess rules s1 +:+ replaceProcess rules s2)
  ∧ generate 3 "A" (<["A" := "AB"]> (<["B" := "A"]> ∅))
    = ["A"; "AB"; "ABA"; "ABAAB"].
Proof.
  intros Hn gens. subst gens.
  split; [apply generate_length|].
  split; [by apply generate_lookup; lia|].
  split.
  { intros i Hi. eexists. split; [apply generate_lookup; lia|].
    rewrite generate_lookup by lia.
    destruct i as [|i]; [lia|]. simpl. by rewrite Nat.sub_0_r. }
  split.
  { intros c. rewrite replaceProcess_chr. unfold replace.
    by destruct (rules !! chr c). }
  split; [apply replaceProcess_app|].
  by vm_compute.
Qed.

Lemma generate_correct_witness :
  0 ≤ 2 ∧ generate 2 "F" (<["F" := "F[+F]"]> ∅) !! 0%nat = Some "F".
Proof.
  split; [lia|].
  exact (proj1 (proj2 (generate_correct (<["F" := "F[+F]"]> ∅) "F" 2 ltac:(lia)))).
Defined.

(** * Facts about strings and the pattern *)

Section StringFacts.



Lemma get_Some_lt (s : string) (n : nat) :
  (n < String.length s)%nat → ∃ c, String.get n s = Some c.
Proof.
  revert n. induction s as [|c s IH]; intros n Hn; simpl in *; [lia|].
  destruct n as [|n]; [by eexists|]. apply IH. lia.
Qed.

Lemma item_nonneg (s : string) (i : Z) :
  0 ≤ i → item s i = chr <$> String.get (Z.to_nat i) s.
Proof.
  intros Hi. unfold item.
  destruct (Z.ltb_spec i 0); [lia|].
  destruct (Z.ltb_spec i 0); [lia|].
  by destruct (String.get (Z.to_nat i) s).
Qed.

Lemma item_in_range (s : string) (i : Z) :
  0 ≤ i < len s → ∃ c, item s i = Some (chr c).
Proof.
  intros [Hi Hlen]. rewrite item_nonneg by done.
  destruct (get_Some_lt s (Z.to_nat i)) as [c Hc]; [unfold len in Hlen; lia|].
  exists c. by rewrite Hc.
Qed.

Lemma params_closed_find (s : string) (n : nat) :
  params_closed s = true →
  String.get (S n) s = Some "("%char →
  is_Some (first_index ")" (drop n s)).
Proof.
  revert s. induction n as [|n IH]; intros s Hs Hget.
  - destruct s as [|c [|c' s]]; simpl in *; try done.
    injection Hget as ->. simpl in Hs.
    apply andb_prop in Hs as [_ Hs]. apply andb_prop in Hs as [Hs _].
    apply bool_decide_eq_true in Hs as [k Hk].
    destruct (Ascii.eqb c ")"); [by eexists|]. simpl. rewrite Hk. by eexists.
  - destruct s as [|c s]; [done|]. simpl in Hs.
    apply andb_prop in Hs as [_ Hs]. simpl. by apply IH.
Qed.

Lemma first_index_app (c : ascii) (a b : string) :
  first_index c (a +:+ b)
  = match first_index c a with
    | Some k => Some k
    | None => (λ k, (String.length a + k)%nat) <$> first_index c b
    end.
Proof.
  induction a as [|x a IH].
  - rewrite append_nil_l. simpl. by destruct (first_index c b).
  - rewrite append_cons. simpl. destruct (Ascii.eqb x c); [done|].
    rewrite IH. destruct (first_index c a); [done|].
    by destruct (first_index c b).
Qed.





Lemma span_app (p : ascii → bool) (a b : string) :
  all_chars p a = true →
  match b with String c _ => p c = false | EmptyString => True end →
  span p (a +:+ b) = (a, b).
Proof.
  intros Ha Hb. induction a as [|x a IH].
  - rewrite append_nil_l. destruct b as [|c b]; [done|]. simpl.
    by rewrite Hb.
  - simpl in Ha. apply andb_prop in Ha as [Hx Ha].
    rewrite append_cons. simpl. by rewrite Hx, (IH Ha).
Qed.

(** The pattern matches [c(text)] with one numeric text... *)
Lemma re_match_single (c : ascii) (text tail : string) :
  is_symbol_char c = true → numeric_text text = true →
  re_match (String c (String "(" (text +:+ String ")" tail)))
  = Some (chr c, text, None).
Proof.
  intros Hc Ht. apply andb_prop in Ht as [Hne Hall].
  unfold re_match. rewrite Hc, (span_app _ text (String ")" tail)) by done.
  by rewrite Hne.
Qed.

(** ... and [c(text1,text2)] with two. *)
Lemma re_match_range (c : ascii) (text1 text2 tail : string) :
  is_symbol_char c = true →
  numeric_text text1 = true → numeric_text text2 = true →
  re_match (String c (String "("
              (text1 +:+ String "," (text2 +:+ String ")" tail))))
  = Some (chr c, text1, Some text2).
Proof.
  intros Hc Ht1 Ht2.
  apply andb_prop in Ht1 as [Hne1 Hall1].
  apply andb_prop in Ht2 as [Hne2 Hall2].
  unfold re_match. rewrite Hc.
  rewrite (span_app _ text1 (String "," _)) by done. rewrite Hne1.
  rewrite (span_app _ text2 (String ")" tail)) by done. by rewrite Hne2.
Qed.


End StringFacts.

(** * Properties of the interpreter *)

Section Properties.
Context `{Host}.

(** *** Unfolding the monad *)

Lemma bind_Return {A B} (m : M A) (k : A → M B) w a w' :
  m w = Return a w' → bind m k w = k a w'.
Proof. unfold bind. by intros ->. Qed.

Lemma bind_Raise {A B} (m : M A) (k : A → M B) w e w' :
  m w = Raise e w' → bind m k w = Raise e w'.
Proof. unfold bind. by intros ->. Qed.

Lemma bind_Timeout {A B} (m : M A) (k : A → M B) w w' :
  m w = Timeout w' → bind m k w = Timeout w'.
Proof. unfold bind. by intros ->. Qed.

Lemma turtle_eta (t : Turtle) :
  mkTurtle (location t) (direction t) (stack t) = t.
Proof. by destruct t. Qed.

Lemma world_eta (w : World) : mkWorld (rng w) (scene w) = w.
Proof. by destruct w. Qed.

(** *** The dictionary of rotations *)

Lemma rotations_lookup_None angle (symbol : string) :
  symbol ∉ rotation_symbols → rotations angle !! symbol = None.
Proof.
  intros Hs. unfold rotations. apply not_elem_of_list_to_map_1.
  exact Hs.
Qed.

Lemma rotations_lookup angle :
  let zero := float_of_Z 0 in
  rotations angle !! "+" = Some (mkEuler zero zero angle)
  ∧ rotations angle !! "-" = Some (mkEuler zero zero (fneg angle))
  ∧ rotations angle !! "&" = Some (mkEuler angle zero zero)
  ∧ rotations angle !! "^" = Some (mkEuler (fneg angle) zero zero)
  ∧ rotations angle !! "<" = Some (mkEuler zero angle zero)
  ∧ rotations angle !! ">" = Some (mkEuler zero (fneg angle) zero)
  ∧ rotations angle !! "|" = Some (mkEuler zero zero math_pi).
Proof.
  unfold rotations. simpl. repeat split; by simplify_map_eq.
Qed.


(** *** Single instructions *)

Ltac not_in_list :=
  let Hin := fresh "Hin" in
  unfold rotation_symbols; intros Hin;
  repeat (apply elem_of_cons in Hin as [Hin|Hin]; [discriminate|]);
  by apply elem_of_nil in Hin.

Lemma eqb_long_short (c d e : ascii) (s : string) :
  String.eqb (String c (String d s)) (String e EmptyString) = false.
Proof. simpl. by destruct (Ascii.eqb c e). Qed.


Lemma rotation_symbol_char (c : ascii) :
  chr c ∈ rotation_symbols → is_symbol_char c = true.
Proof.
  unfold rotation_symbols. intros Hin.
  repeat (apply elem_of_cons in Hin as [Hin|Hin];
          [injection Hin as ->; reflexivity|]).
  by apply elem_of_nil in Hin.
Qed.

Lemma float_Some text v w : parse_float text = Some v → float text w = Return v w.
Proof. unfold float. by intros ->. Qed.

Lemma float_None text w :
  parse_float text = None → float text w = Raise ValueError w.
Proof. unfold float. by intros ->. Qed.

(** An instruction without a match is its own symbol and has no value. *)
Lemma extract_value_unmatched instruction w :
  re_match instruction = None →
  extract_value instruction w = Return (instruction, None) w.
Proof. unfold extract_value. by intros ->. Qed.

(** [c(text)] has the value [float(text)]. *)
Lemma extract_value_single (c : ascii) (text : string) v w :
  is_symbol_char c = true → numeric_text text = true →
  parse_float text = Some v →
  extract_value (chr c +:+ "(" +:+ text +:+ ")") w = Return (chr c, Some v) w.
Proof.
  intros Hc Ht Hv. unfold extract_value.
  change (chr c +:+ "(" +:+ text +:+ ")")
    with (String c (String "(" (text +:+ String ")" ""))).
  rewrite re_match_single by done.
  by rewrite (bind_Return _ _ _ _ _ (float_Some _ _ _ Hv)).
Qed.

(** [c(text1,text2)] has a value drawn by [random.uniform]. *)
Lemma extract_value_range (c : ascii) (text1 text2 : string) lo hi w :
  is_symbol_char c = true →
  numeric_text text1 = true → numeric_text text2 = true →
  parse_float text1 = Some lo → parse_float text2 = Some hi →
  extract_value (chr c +:+ "(" +:+ text1 +:+ "," +:+ text2 +:+ ")") w
  = Return (chr c, Some (random_uniform lo hi (rng w)).1)
      (mkWorld (random_uniform lo hi (rng w)).2 (scene w)).
Proof.
  intros Hc Ht1 Ht2 Hlo Hhi. unfold extract_value.
  change (chr c +:+ "(" +:+ text1 +:+ "," +:+ text2 +:+ ")")
    with (String c (String "("
            (text1 +:+ String "," (text2 +:+ String ")" "")))).
  rewrite re_match_range by done.
  rewrite (bind_Return _ _ _ _ _ (float_Some _ _ _ Hlo)).
  rewrite (bind_Return _ _ _ _ _ (float_Some _ _ _ Hhi)).
  unfold bind, uniform, ret. by destruct (random_uniform lo hi (rng w)).
Qed.

(** The [if]/[elif] chain past its first test. *)
Ltac unregistered Hreg :=
  unfold dispatch; rewrite Hreg;
  destruct (decide (is_Some None)) as [[? ?]|_]; [done|].

Lemma dispatch_F self value t w :
  mesh_dict self !! "F" = None →
  dispatch self "F" value t w
  = Return
      (mkTurtle
         (vadd (location t)
            (vscale (direction t) (default (step_length self) value)))
         (direction t) (stack t))
      (mkWorld (rng w)
         (scene w ++
          [LineSegment (location t)
             (vadd (location t)
                (vscale (direction t) (default (step_length self) value)))])).
Proof. intros Hreg. by unregistered Hreg. Qed.

Lemma dispatch_f self value t w :
  mesh_dict self !! "f" = None →
  dispatch self "f" value t w
  = Return
      (mkTurtle
         (vadd (location t)
            (vscale (direction t) (default (step_length self) value)))
         (direction t) (stack t))
      w.
Proof. intros Hreg. by unregistered Hreg. Qed.

Lemma dispatch_push self value t w :
  mesh_dict self !! "[" = None →
  dispatch self "[" value t w
  = Return
      (mkTurtle (location t) (direction t)
         ((location t, direction t) :: stack t))
      w.
Proof. intros Hreg. by unregistered Hreg. Qed.

Lemma dispatch_pop self value t w :
  mesh_dict self !! "]" = None →
  dispatch self "]" value t w
  = match stack t with
    | (location', direction') :: stack' =>
        Return (mkTurtle location' direction' stack') w
    | [] => Raise IndexError w
    end.
Proof.
  intros Hreg. unregistered Hreg. simpl.
  by destruct (stack t) as [|[? ?] ?].
Qed.

(** A symbol of the last branch with an entry in [rotations]. *)
Lemma dispatch_rotation self symbol euler value t w :
  mesh_dict self !! symbol = None →
  symbol ∈ rotation_symbols →
  rotations
    (math_radians (default (default_angle self) value)) !! symbol
  = Some euler →
  dispatch self symbol value t w
  = Return
      (mkTurtle (location t) (vector_rotate euler (direction t)) (stack t))
      w.
Proof.
  intros Hreg Hin Hrot. unregistered Hreg.
  unfold rotate_direction. rewrite Hrot.
  unfold rotation_symbols in Hin.
  repeat (apply elem_of_cons in Hin as [->|Hin]; [done|]).
  by apply elem_of_nil in Hin.
Qed.

(** A symbol no branch knows leaves everything as it is. *)
Lemma dispatch_unknown self symbol value t w :
  mesh_dict self !! symbol = None →
  symbol ∉ ["F"; "f"; "["; "]"] →
  symbol ∉ rotation_symbols →
  dispatch self symbol value t w = Return t w.
Proof.
  intros Hreg Hsym Hrot. unregistered Hreg.
  repeat match goal with
  | |- context [String.eqb symbol ?s] =>
      destruct (String.eqb_spec symbol s) as [->|_];
        [exfalso; apply Hsym; set_solver|]
  end.
  unfold rotate_direction. rewrite rotations_lookup_None by done.
  unfold ret. by rewrite turtle_eta.
Qed.

(** *** Rounds of the [while] loop *)

Lemma while_loop_unfold fuel self rule index t w :
  while_loop fuel self rule index t w
  = (if index <? len rule then
       match fuel with
       | O => timeout
       | S fuel' =>
           bind (step self rule index t)
             (λ x, while_loop fuel' self rule x.1 x.2)
       end
     else ret t) w.
Proof.
  destruct fuel; simpl; [done|].
  destruct (index <? len rule); [|done].
  unfold bind.
  by destruct (step self rule index t w) as [[? ?] ?| |].
Qed.

Lemma while_loop_end fuel self rule index t w :
  (index <? len rule) = false →
  while_loop fuel self rule index t w = Return t w.
Proof. intros Hend. by rewrite while_loop_unfold, Hend. Qed.

Lemma step_fetched self rule index t w instruction index' :
  fetch rule index w = Return (instruction, index') w →
  step self rule index t w
  = bind (extract_value instruction)
      (λ x, bind (dispatch self x.1 x.2 t) (λ t', ret (index' + 1, t'))) w.
Proof.
  intros Hfetch. unfold step. rewrite (bind_Return _ _ _ _ _ Hfetch).
  unfold bind. by destruct (extract_value instruction w) as [[? ?] ?| |].
Qed.

Lemma while_loop_round fuel self rule index t w
    instruction index' symbol value w1 t' w2 :
  (index <? len rule) = true →
  fetch rule index w = Return (instruction, index') w →
  extract_value instruction w = Return (symbol, value) w1 →
  dispatch self symbol value t w1 = Return t' w2 →
  while_loop (S fuel) self rule index t w
  = while_loop fuel self rule (index' + 1) t' w2.
Proof.
  intros Hlt Hfetch Hextract Hdispatch.
  assert (Hstep : step self rule index t w = Return (index' + 1, t') w2).
  { rewrite (step_fetched _ _ _ _ _ _ _ Hfetch).
    rewrite (bind_Return _ _ _ _ _ Hextract). simpl.
    by rewrite (bind_Return _ _ _ _ _ Hdispatch). }
  rewrite while_loop_unfold, Hlt.
  by rewrite (bind_Return _ _ _ _ _ Hstep).
Qed.

Lemma while_loop_round_raise fuel self rule index t w
    instruction index' symbol value w1 e w2 :
  (index <? len rule) = true →
  fetch rule index w = Return (instruction, index') w →
  extract_value instruction w = Return (symbol, value) w1 →
  dispatch self symbol value t w1 = Raise e w2 →
  while_loop (S fuel) self rule index t w = Raise e w2.
Proof.
  intros Hlt Hfetch Hextract Hdispatch.
  assert (Hstep : step self rule index t w = Raise e w2).
  { rewrite (step_fetched _ _ _ _ _ _ _ Hfetch).
    rewrite (bind_Return _ _ _ _ _ Hextract). simpl.
    by rewrite (bind_Raise _ _ _ _ _ Hdispatch). }
  rewrite while_loop_unfold, Hlt.
  by rewrite (bind_Raise _ _ _ _ _ Hstep).
Qed.

(** *** Claims about single instructions *)

(** C7. Pop on an empty stack.  With an empty [stack], the instruction
    ["]"] raises [IndexError] (Python's error for [pop] on an empty list,
    the failure the specification names UnbalancedBranch) and adds
    nothing to the scene; so does the [while] loop on the string ["]"];
    and a drawing pass over the single string ["]"] ends in that error
    with the start marker as the only object: no line segment and no
    instance placement. *)
Theorem pop_on_empty_stack (self : LSystem) :
  mesh_dict self !! "]" = None →
  (∀ value t w,
     stack t = [] → dispatch self "]" value t w = Raise IndexError w)
  ∧ (∀ fuel t w,
       stack t = [] →
       while_loop (S fuel) self "]" 0 t w = Raise IndexError w)
  ∧ (∀ fuel w,
       resultStrs self = ["]"] →
       draw (S fuel) self w
       = Raise IndexError
           (mkWorld (rng w) (scene w ++ [StartMarker origin]))).
Proof.
  intros Hreg.
  assert (Hpop : ∀ value t w,
    stack t = [] → dispatch self "]" value t w = Raise IndexError w).
  { intros value t w Hstack. by rewrite dispatch_pop, Hstack. }
  assert (Hloop : ∀ fuel t w,
    stack t = [] → while_loop (S fuel) self "]" 0 t w = Raise IndexError w).
  { intros fuel t w Hstack.
    eapply while_loop_round_raise; [done|reflexivity|reflexivity|].
    by apply Hpop. }
  split; [done|]. split; [done|].
  intros fuel w Hstrs. unfold draw. rewrite Hstrs.
  rewrite (bind_Return _ _ w tt
             (mkWorld (rng w) (scene w ++ [StartMarker origin])))
    by reflexivity.
  unfold for_rules.
  by rewrite (bind_Raise _ _ _ _ _ (Hloop fuel initial_turtle _ eq_refl)).
Qed.

(** C3, as the program has it.  Each of [+ - & ^ < >] turns [direction],
    and only [direction], by [Vector.rotate] with the Euler angles (order
    XYZ) that hold [angle = radians(value if present, else default_angle)]
    in one component with one sign: [+] and [-] in the z component, [&]
    and [^] in the x component, [<] and [>] in the y component, the first
    of each pair with [+angle] and the second with [-angle]; [|] turns by
    [pi] in the z component whatever the value.  The location, the stack,
    the generator and the scene stay as they are.  A rotation instruction
    [c(text)] carries the value [float(text)], a bare [c] carries none.
    The angles do not depend on the turtle: the axes are those of the
    world, not axes of a frame carried by the turtle (the program keeps
    none).  With [Vector.rotate] turning about the axis of the world that
    the non-zero component names, [&] and [^] keep the x coordinate of
    every direction, [<] and [>] its y coordinate, [+], [-] and [|] its z
    coordinate. *)
Theorem rotation_semantics (self : LSystem) (value : option Float)
    (t : Turtle) (w : World) :
  Forall (λ symbol, mesh_dict self !! symbol = None) rotation_symbols →
  let angle :=
    math_radians
      (match value with Some v => v | None => default_angle self end) in
  let zero := float_of_Z 0 in
  let turned euler :=
    Return
      (mkTurtle (location t) (vector_rotate euler (direction t)) (stack t))
      w in
  dispatch self "+" value t w = turned (mkEuler zero zero angle)
  ∧ dispatch self "-" value t w = turned (mkEuler zero zero (fneg angle))
  ∧ dispatch self "&" value t w = turned (mkEuler angle zero zero)
  ∧ dispatch self "^" value t w = turned (mkEuler (fneg angle) zero zero)
  ∧ dispatch self "<" value t w = turned (mkEuler zero angle zero)
  ∧ dispatch self ">" value t w = turned (mkEuler zero (fneg angle) zero)
  ∧ dispatch self "|" value t w = turned (mkEuler zero zero math_pi)
  ∧ (∀ c : ascii, chr c ∈ rotation_symbols →
       extract_value (chr c) w = Return (chr c, None) w
       ∧ ∀ text v,
           numeric_text text = true → parse_float text = Some v →
           extract_value (chr c +:+ "(" +:+ text +:+ ")") w
           = Return (chr c, Some v) w)
  ∧ (rotates_about_world_axes →
     ∀ symbol t' w',
       dispatch self symbol value t w = Return t' w' →
       (symbol ∈ ["&"; "^"] → vx (direction t') = vx (direction t))
       ∧ (symbol ∈ ["<"; ">"] → vy (direction t') = vy (direction t))
       ∧ (symbol ∈ ["+"; "-"; "|"] → vz (direction t') = vz (direction t))).
Proof.
  intros Hreg angle zero turned.
  rewrite Forall_forall in Hreg.
  pose proof (rotations_lookup angle) as (Hp & Hm & Ha & Hc & Hl & Hg & Hb).
  assert (Hangle : angle
    = math_radians (default (default_angle self) value))
    by (by destruct value).
  rewrite Hangle in Hp, Hm, Ha, Hc, Hl, Hg, Hb.
  assert (Hturn : ∀ symbol euler,
    symbol ∈ rotation_symbols →
    rotations (math_radians (default (default_angle self) value))
      !! symbol = Some euler →
    dispatch self symbol value t w = turned euler).
  { intros symbol euler Hin Hrot. subst turned. simpl.
    apply dispatch_rotation; [by apply Hreg|done|done]. }
  assert (Hyaw : dispatch self "+" value t w
                 = turned (mkEuler zero zero angle)).
  { rewrite Hangle. apply Hturn; [set_solver|exact Hp]. }
  assert (Hyaw' : dispatch self "-" value t w
                  = turned (mkEuler zero zero (fneg angle))).
  { rewrite Hangle. apply Hturn; [set_solver|exact Hm]. }
  assert (Hpitch : dispatch self "&" value t w
                   = turned (mkEuler angle zero zero)).
  { rewrite Hangle. apply Hturn; [set_solver|exact Ha]. }
  assert (Hpitch' : dispatch self "^" value t w
                    = turned (mkEuler (fneg angle) zero zero)).
  { rewrite Hangle. apply Hturn; [set_solver|exact Hc]. }
  assert (Hroll : dispatch self "<" value t w
                  = turned (mkEuler zero angle zero)).
  { rewrite Hangle. apply Hturn; [set_solver|exact Hl]. }
  assert (Hroll' : dispatch self ">" value t w
                   = turned (mkEuler zero (fneg angle) zero)).
  { rewrite Hangle. apply Hturn; [set_solver|exact Hg]. }
  assert (Hback : dispatch self "|" value t w
                  = turned (mkEuler zero zero math_pi)).
  { apply Hturn; [set_solver|exact Hb]. }
  do 7 (split; [assumption|]).
  split.
  - intros c Hc'. split.
    + by apply extract_value_unmatched.
    + intros text v Htext Hv.
      apply extract_value_single; [by apply rotation_symbol_char|done|done].
  - intros (Hx & Hy & Hz) symbol t' w' Hd. subst turned. simpl in *.
    split; [|split]; intros Hin;
      repeat (apply elem_of_cons in Hin as [->|Hin];
              [match goal with
               | Heq : dispatch self ?s value t w = Return _ w |- _ =>
                   rewrite Heq in Hd; injection Hd as <- _; simpl;
                   first [apply Hx | apply Hy | apply Hz]
               end|]);
      by apply elem_of_nil in Hin.
Qed.







(** *** Construction *)

(** C9, as the program has it.  A negative [numIters] is not refused:
    [range(numIters)] is empty, so construction returns an object whose
    production sequence is the start string alone, as for
    [numIters = 0]. *)
Theorem negative_numIters_constructs (numIters : Z) (startStr : string)
    (rules : gmap string string) (step_length default_angle : Float)
    (mesh_dict : gmap string (option Mesh)) (random_seed : option Z)
    (entropy : Rng) (w : World) :
  numIters < 0 →
  ∃ self w',
    LSystem_init numIters startStr rules step_length default_angle
      mesh_dict random_seed entropy w = Return self w'
    ∧ resultStrs self = [startStr]
    ∧ resultStrs self = generate 0 startStr rules.
Proof.
  intros Hneg. eexists _, _. split; [reflexivity|]. simpl.
  unfold generate. by destruct numIters.
Qed.

(** C6. Seeded determinism.  With an explicit seed, construction followed
    by a drawing pass gives the same outcome (the same scene, object by
    object, the same final generator state and turtle, or the same
    error) whatever the state of the generator before the run, whatever
    the operating system's entropy, provided the inputs and the scene at
    the start are the same. *)
Theorem seeded_runs_agree (fuel : nat) (numIters : Z) (startStr : string)
    (rules : gmap string string) (step_length default_angle : Float)
    (mesh_dict : gmap string (option Mesh)) (seed : Z)
    (entropy1 entropy2 : Rng) (w1 w2 : World) :
  scene w1 = scene w2 →
  run fuel numIters startStr rules step_length default_angle mesh_dict
    (Some seed) entropy1 w1
  = run fuel numIters startStr rules step_length default_angle mesh_dict
      (Some seed) entropy2 w2.
Proof. intros Hscene. unfold run, bind, LSystem_init. by rewrite Hscene. Qed.

(** *** The walk of the index *)

Lemma fetch_fetched rule index w :
  fetch rule index w
  = match fetched rule index with
    | Some x => Return x w
    | None => Raise IndexError w
    end.
Proof.
  unfold fetch, fetched, getitem, bind.
  destruct (item rule index) as [instruction|]; simpl; [|done].
  by destruct ((index + 2 <? len rule)
               && bool_decide (item rule (index + 1) = Some "(")).
Qed.

(** While the walk gets through, the loop is the interpretation of the
    instructions walked over. *)
Lemma while_loop_walk self fuel rule index toks t w :
  walk fuel rule index = Some toks →
  while_loop fuel self rule index t w = interpret self toks t w.
Proof.
  revert index toks t w.
  induction fuel as [|fuel IH]; intros index toks t w Hwalk;
    rewrite while_loop_unfold; simpl in Hwalk;
    destruct (index <? len rule); try done.
  - by injection Hwalk as <-.
  - destruct (fetched rule index) as [[instruction index']|] eqn:Hf;
      [|done].
    destruct (index' <? 0); [done|].
    destruct (walk fuel rule (index' + 1)) as [toks'|] eqn:Hw; [|done].
    injection Hwalk as <-.
    assert (Hfetch : fetch rule index w = Return (instruction, index') w)
      by (by rewrite fetch_fetched, Hf).
    unfold bind at 1. rewrite (step_fetched _ _ _ _ _ _ _ Hfetch).
    simpl. unfold bind.
    destruct (extract_value instruction w) as [[symbol value] w1| |];
      [|done|done].
    simpl.
    destruct (dispatch self symbol value t w1) as [t' w2| |]; [|done|done].
    simpl. by apply IH.
  - by injection Hwalk as <-.
Qed.

Lemma walk_mono rule fuel fuel' index toks :
  (fuel ≤ fuel')%nat →
  walk fuel rule index = Some toks → walk fuel' rule index = Some toks.
Proof.
  revert fuel' index toks.
  induction fuel as [|fuel IH]; intros fuel' index toks Hle Hwalk.
  - simpl in Hwalk. destruct fuel'; simpl;
      destruct (index <? len rule); done.
  - destruct fuel' as [|fuel']; [lia|]. simpl in *.
    destruct (index <? len rule); [|done].
    destruct (fetched rule index) as [[instruction index']|]; [|done].
    destruct (index' <? 0); [done|].
    destruct (walk fuel rule (index' + 1)) as [toks'|] eqn:Hw; [|done].
    by rewrite (IH fuel' _ toks' ltac:(lia) Hw).
Qed.

(** With every parameter list closed, the walk gets through. *)
Lemma walk_total rule fuel index :
  params_closed rule = true →
  0 ≤ index → (Z.to_nat (len rule - index) ≤ fuel)%nat →
  is_Some (walk fuel rule index).
Proof.
  intros Hclosed. revert index.
  induction fuel as [|fuel IH]; intros index Hindex Hfuel; simpl;
    destruct (Z.ltb_spec index (len rule)) as [Hlt|Hge];
    try done; [lia|].
  destruct (item_in_range rule index ltac:(lia)) as [c Hc].
  unfold fetched. rewrite Hc. simpl.
  destruct ((index + 2 <? len rule)
            && bool_decide (item rule (index + 1) = Some "(")) eqn:Hcond.
  - apply andb_prop in Hcond as [_ Hopen].
    apply bool_decide_eq_true in Hopen.
    rewrite item_nonneg in Hopen by lia.
    replace (Z.to_nat (index + 1)) with (S (Z.to_nat index)) in Hopen
      by lia.
    destruct (String.get (S (Z.to_nat index)) rule) as [x|] eqn:Hget;
      [|done].
    injection Hopen as ->.
    destruct (params_closed_find rule _ Hclosed Hget) as [k Hk].
    unfold find. rewrite Hk.
    destruct (Z.ltb_spec (index + Z.of_nat k) 0); [lia|].
    destruct (IH (index + Z.of_nat k + 1) ltac:(lia) ltac:(lia))
      as [toks ->].
    by eexists.
  - destruct (Z.ltb_spec index 0); [lia|].
    destruct (IH (index + 1) ltac:(lia) ltac:(lia)) as [toks ->].
    by eexists.
Qed.

Lemma instructions_total rule :
  params_closed rule = true → is_Some (instructions rule).
Proof.
  intros Hclosed. apply walk_total; [done|lia|unfold len; lia].
Qed.

Lemma while_loop_instructions self fuel rule toks t w :
  instructions rule = Some toks → (String.length rule ≤ fuel)%nat →
  while_loop fuel self rule 0 t w = interpret self toks t w.
Proof.
  intros Htoks Hfuel. apply while_loop_walk.
  by apply (walk_mono rule (String.length rule)).
Qed.

(** *** Brackets *)


(** The symbol of a match is one character of the symbol class. *)
Lemma re_match_symbol instruction symbol group2 group3 :
  re_match instruction = Some (symbol, group2, group3) →
  (∃ c, symbol = chr c ∧ is_symbol_char c = true)
  ∧ instruction ≠ "[" ∧ instruction ≠ "]".
Proof.
  unfold re_match. intros Hm.
  destruct instruction as [|c [|d rest]]; try done.
  destruct (Ascii.eqb_spec d "(") as [->|Hd].
  2:{ revert Hm Hd. clear. destruct d as [[] [] [] [] [] [] [] []]; done. }
  destruct (is_symbol_char c) eqn:Hc; [|done].
  destruct (span is_num_char rest) as [g2 rest2].
  destruct (nonempty g2); [|done].
  assert (symbol = chr c) as ->.
  { destruct rest2 as [|x rest2]; [done|].
    destruct (Ascii.eqb_spec x ")") as [->|Hx1]; [by injection Hm|].
    destruct (Ascii.eqb_spec x ",") as [->|Hx2].
    2:{ revert Hm Hx1 Hx2. clear.
        destruct x as [[] [] [] [] [] [] [] []]; done. }
    destruct (span is_num_char rest2) as [g3 rest4].
    destruct (nonempty g3); [|done].
    destruct rest4 as [|y rest4]; [done|].
    destruct (Ascii.eqb_spec y ")") as [->|Hy]; [by injection Hm|].
    revert Hm Hy. clear. destruct y as [[] [] [] [] [] [] [] []]; done. }
  split; [by exists c|done].
Qed.

(** A parseable instruction yields a symbol and a value; the symbol is
    a bracket exactly when the instruction is that bracket. *)
Lemma extract_value_parseable instruction w :
  parseable instruction = true →
  ∃ symbol value w',
    extract_value instruction w = Return (symbol, value) w'
    ∧ scene w' = scene w
    ∧ (symbol = "[" ↔ instruction = "[")
    ∧ (symbol = "]" ↔ instruction = "]").
Proof.
  unfold parseable, extract_value. intros Hp.
  destruct (re_match instruction) as [[[symbol g2] g3]|] eqn:Hm.
  2:{ by exists instruction, None, w. }
  destruct (re_match_symbol _ _ _ _ Hm) as ((c & -> & Hc) & Hno & Hnc).
  apply andb_prop in Hp as [Hg2 Hg3].
  apply bool_decide_eq_true in Hg2 as [v2 Hv2].
  assert (Hsym : (chr c = "[" ↔ instruction = "[")
                 ∧ (chr c = "]" ↔ instruction = "]")).
  { split; (split; [|done]); intros Heq; injection Heq as ->; done. }
  destruct g3 as [g3|]; simpl in Hg3;
    rewrite (bind_Return _ _ _ _ _ (float_Some _ _ w Hv2)).
  - apply bool_decide_eq_true in Hg3 as [v3 Hv3].
    rewrite (bind_Return _ _ _ _ _ (float_Some _ _ w Hv3)).
    unfold bind, uniform, ret.
    destruct (random_uniform v2 v3 (rng w)) as [r g].
    by eexists _, _, _.
  - by eexists _, _, _.
Qed.

Lemma add_mesh_instance_returns self symbol location direction mesh w :
  mesh_dict self !! symbol = Some (Some mesh) →
  ∃ rotation g,
    add_mesh_instance self symbol location direction w
    = Return tt
        (mkWorld g
           (scene w ++ [InstancePlacement symbol mesh location rotation])).
Proof.
  intros Hmesh. unfold add_mesh_instance. rewrite Hmesh.
  unfold bind, uniform, emit.
  destruct (random_uniform (float_of_Z 0) two_pi (rng w)) as [rx g1].
  simpl.
  destruct (random_uniform (float_of_Z 0) two_pi g1) as [ry g2]. simpl.
  destruct (random_uniform (float_of_Z 0) two_pi g2) as [rz g3]. simpl.
  by eexists _, _.
Qed.

(** A registered symbol places its mesh, or raises [AttributeError] when
    the entry is [None]; the turtle is not touched. *)
Lemma dispatch_registered_outcomes self symbol entry value t w :
  mesh_dict self !! symbol = Some entry →
  match entry with
  | Some mesh =>
      ∃ rotation g,
        dispatch self symbol value t w
        = Return t
            (mkWorld g
               (scene w
                ++ [InstancePlacement symbol mesh (location t) rotation]))
  | None => dispatch self symbol value t w = Raise AttributeError w
  end.
Proof.
  intros Hm. unfold dispatch. rewrite Hm.
  destruct (decide (is_Some (Some entry))) as [_|Hn]; [|by destruct Hn].
  destruct entry as [mesh|].
  - destruct (add_mesh_instance_returns self symbol (location t)
                (direction t) mesh w Hm) as (rotation & g & Hadd).
    rewrite (bind_Return _ _ _ _ _ Hadd). by eexists _, _.
  - apply bind_Raise. unfold add_mesh_instance. by rewrite Hm.
Qed.

(** Every instruction but the two brackets leaves the stack; it returns
    unless its symbol is bound to [None]. *)
Lemma dispatch_other_outcomes self symbol value t w :
  symbol ≠ "[" → symbol ≠ "]" →
  (∃ t' w', dispatch self symbol value t w = Return t' w'
            ∧ stack t' = stack t)
  ∨ (mesh_dict self !! symbol = Some None
     ∧ dispatch self symbol value t w = Raise AttributeError w).
Proof.
  intros Hopen Hclose.
  destruct (mesh_dict self !! symbol) as [entry|] eqn:Hm.
  { pose proof (dispatch_registered_outcomes self symbol entry value t w Hm)
      as Hout.
    destruct entry as [mesh|]; [|by right].
    destruct Hout as (rotation & g & ->). left. by eexists _, _. }
  left. unfold dispatch. rewrite Hm.
  destruct (decide (is_Some None)) as [[? ?]|_]; [done|].
  destruct (String.eqb symbol "F"); [by eexists _, _|].
  destruct (String.eqb symbol "f"); [by eexists _, _|].
  destruct (String.eqb_spec symbol "["); [done|].
  destruct (String.eqb_spec symbol "]"); [done|].
  by eexists _, _.
Qed.

Lemma dispatch_keeps_stack self symbol value t w :
  mesh_dict self !! symbol ≠ Some None →
  symbol ≠ "[" → symbol ≠ "]" →
  ∃ t' w', dispatch self symbol value t w = Return t' w'
           ∧ stack t' = stack t.
Proof.
  intros Hloaded Hopen Hclose.
  by destruct (dispatch_other_outcomes self symbol value t w Hopen Hclose)
    as [Hret|[Hnone _]].
Qed.

(** Brackets in valid nesting never pop below the entries they pushed:
    the stack below is untouched, and the entries above it at the end
    are as many as the final depth. *)
Lemma interpret_nesting self (toks : list string) :
  mesh_dict self !! "[" = None → mesh_dict self !! "]" = None →
  meshes_loaded self →
  forallb parseable toks = true →
  ∀ above below t w depth,
    stack t = above ++ below →
    nesting (length above) toks = Some depth →
    ∃ t' w' above',
      interpret self toks t w = Return t' w'
      ∧ stack t' = above' ++ below ∧ length above' = depth.
Proof.
  intros Hopen Hclose Hloaded.
  induction toks as [|tok toks IH]; intros Hparse above below t w depth
    Hstack Hnest; simpl in *.
  { injection Hnest as <-. by exists t, w, above. }
  apply andb_prop in Hparse as [Hp Hparse].
  destruct (extract_value_parseable tok w Hp)
    as (symbol & value & w1 & Hex & _ & Ho & Hc).
  rewrite (bind_Return _ _ _ _ _ Hex).
  destruct (String.eqb_spec tok "[") as [->|Hno].
  { rewrite (proj2 Ho eq_refl).
    rewrite (bind_Return _ _ _ _ _ (dispatch_push _ _ _ _ Hopen)).
    apply (IH Hparse ((location t, direction t) :: above) below);
      [simpl; by rewrite Hstack|done]. }
  destruct (String.eqb_spec tok "]") as [->|Hnc].
  { rewrite (proj2 Hc eq_refl).
    destruct above as [|[l d] above]; [done|].
    assert (Hpop : dispatch self "]" value t w1
                   = Return (mkTurtle l d (above ++ below)) w1).
    { rewrite dispatch_pop by done. by rewrite Hstack. }
    rewrite (bind_Return _ _ _ _ _ Hpop).
    by apply (IH Hparse above below). }
  destruct (dispatch_keeps_stack self symbol value t w1)
    as (t' & w2 & Hd & Hs); [apply Hloaded|tauto|tauto|].
  rewrite (bind_Return _ _ _ _ _ Hd).
  apply (IH Hparse above below); [by rewrite Hs|done].
Qed.

Lemma interpret_balanced self (toks : list string) t w :
  mesh_dict self !! "[" = None → mesh_dict self !! "]" = None →
  meshes_loaded self →
  forallb parseable toks = true → balanced toks →
  ∃ t' w', interpret self toks t w = Return t' w' ∧ stack t' = stack t.
Proof.
  intros Hopen Hclose Hloaded Hparse Hbal.
  destruct (interpret_nesting self toks Hopen Hclose Hloaded Hparse
              [] (stack t) t w 0%nat eq_refl Hbal)
    as (t' & w' & above' & Hrun & Hstack & Hlen).
  exists t', w'. split; [done|].
  by destruct above'.
Qed.


(** Whatever the numeric texts, [extract_value] either raises
    [ValueError] or returns as above. *)
Lemma extract_value_cases instruction w :
  extract_value instruction w = Raise ValueError w
  ∨ ∃ symbol value w',
      extract_value instruction w = Return (symbol, value) w'
      ∧ (symbol = "[" ↔ instruction = "[")
      ∧ (symbol = "]" ↔ instruction = "]").
Proof.
  destruct (parseable instruction) eqn:Hp.
  { right. destruct (extract_value_parseable instruction w Hp)
      as (symbol & value & w' & Hex & _ & Ho & Hc).
    by exists symbol, value, w'. }
  left. unfold parseable in Hp. unfold extract_value.
  destruct (re_match instruction) as [[[symbol g2] g3]|]; [|done].
  destruct (parse_float g2) as [v2|] eqn:Hv2.
  2:{ destruct g3; by rewrite (bind_Raise _ _ _ _ _ (float_None _ w Hv2)). }
  destruct g3 as [g3|]; simpl in Hp.
  2:{ exfalso. revert Hp. clear. rewrite ?andb_true_r.
      by rewrite ?bool_decide_eq_true_2 by (by eexists). }
  rewrite (bind_Return _ _ _ _ _ (float_Some _ _ w Hv2)).
  destruct (parse_float g3) as [v3|] eqn:Hv3.
  { exfalso. revert Hp. clear.
    by rewrite ?bool_decide_eq_true_2 by (by eexists). }
  by rewrite (bind_Raise _ _ _ _ _ (float_None _ w Hv3)).
Qed.



(** *** A parameter list that is not closed *)

Lemma fetch_unterminated (c : ascii) (body : string) w :
  body ≠ "" →
  first_index ")" (String c (String "(" body)) = None →
  fetch (String c (String "(" body)) 0 w = Return ("", -1) w.
Proof.
  intros Hbody Hnone. rewrite fetch_fetched. unfold fetched.
  change (item (String c (String "(" body)) 0) with (Some (chr c)).
  cbn [mbind option_bind].
  assert (Hcond : (0 + 2 <? len (String c (String "(" body)))
                  && bool_decide
                       (item (String c (String "(" body)) (0 + 1)
                        = Some "(") = true).
  { apply andb_true_intro. split; [|by apply bool_decide_eq_true].
    apply Z.ltb_lt. unfold len. destruct body; [done|]. simpl. lia. }
  rewrite Hcond. unfold find.
  change (drop (Z.to_nat 0) (String c (String "(" body)))
    with (String c (String "(" body)).
  by rewrite Hnone.
Qed.

Lemma dispatch_empty_symbol self value t w :
  mesh_dict self !! "" ≠ Some None →
  ∃ w', dispatch self "" value t w = Return t w'.
Proof.
  intros Hloaded.
  destruct (mesh_dict self !! "") as [[mesh|]|] eqn:Hmesh; [|done|].
  - destruct (dispatch_registered_outcomes self "" (Some mesh) value t w
                Hmesh) as (rotation & g & ->).
    by eexists.
  - exists w. apply dispatch_unknown; [done| |]; not_in_list.
Qed.

(** C8, as the program has it.  On a string [c(body] with no closing
    parenthesis, [find] answers [-1], the instruction fetched is the empty
    string, and the next round starts again at index 0: the loop uses up
    any amount of fuel, and no error is ever raised, unless the empty
    string is a key of [mesh_dict] bound to [None], when the first round
    ends in the [AttributeError] of [None.copy()].  For ["F(2"], with the
    empty string not registered, each round leaves the turtle and the
    world as they were; and a drawing pass over that string alone never
    gets past the start marker. *)
Theorem unterminated_parameter_list_loops (self : LSystem) :
  (∀ (c : ascii) (body : string),
     body ≠ "" →
     first_index ")" (chr c +:+ "(" +:+ body) = None →
     (mesh_dict self !! "" ≠ Some None →
      ∀ fuel t w,
        ∃ w', while_loop fuel self (chr c +:+ "(" +:+ body) 0 t w
              = Timeout w')
     ∧ (mesh_dict self !! "" = Some None →
        ∀ fuel t w,
          while_loop (S fuel) self (chr c +:+ "(" +:+ body) 0 t w
          = Raise AttributeError w))
  ∧ (mesh_dict self !! "" = None →
     ∀ fuel t w, while_loop fuel self "F(2" 0 t w = Timeout w)
  ∧ (mesh_dict self !! "" = None → resultStrs self = ["F(2"] →
     ∀ fuel w,
       draw fuel self w
       = Timeout (mkWorld (rng w) (scene w ++ [StartMarker origin]))).
Proof.
  assert (Hloop : ∀ fuel t w,
    mesh_dict self !! "" = None →
    while_loop fuel self "F(2" 0 t w = Timeout w).
  { intros fuel t w Hreg. induction fuel as [|fuel IH]; [done|].
    rewrite (while_loop_round fuel self "F(2" 0 t w "" (-1) "" None w t w);
      [exact IH|done|by apply fetch_unterminated|done|].
    apply dispatch_unknown; [done| |]; not_in_list. }
  split; [|split].
  - intros c body Hbody Hnone.
    change (chr c +:+ "(" +:+ body) with (String c (String "(" body)) in *.
    assert (Hlt : (0 <? len (String c (String "(" body))) = true).
    { apply Z.ltb_lt. unfold len. simpl. lia. }
    split.
    + intros Hloaded fuel.
      induction fuel as [|fuel IH]; intros t w.
      * exists w. by rewrite while_loop_unfold, Hlt.
      * destruct (dispatch_empty_symbol self None t w Hloaded) as [w1 Hd].
        destruct (IH t w1) as [w' Hw']. exists w'.
        rewrite (while_loop_round fuel self _ 0 t w "" (-1) "" None w t w1);
          [exact Hw'|exact Hlt|by apply fetch_unterminated|done|exact Hd].
    + intros Hnomesh fuel t w.
      apply (while_loop_round_raise fuel self _ 0 t w "" (-1) "" None w);
        [exact Hlt|by apply fetch_unterminated|done|].
      apply (dispatch_registered_outcomes self "" None None t w Hnomesh).
  - intros Hreg fuel t w. by apply Hloop.
  - intros Hreg Hstrs fuel w. unfold draw. rewrite Hstrs.
    rewrite (bind_Return _ _ w tt
               (mkWorld (rng w) (scene w ++ [StartMarker origin])))
      by reflexivity.
    simpl. by rewrite (bind_Timeout _ _ _ _ (Hloop fuel _ _ Hreg)).
Qed.

(** *** What a drawing pass adds to the scene *)

Lemma extends_refl w : extends w w.
Proof. exists []. by rewrite app_nil_r. Qed.

Lemma extends_trans w1 w2 w3 : extends w1 w2 → extends w2 w3 → extends w1 w3.
Proof.
  intros (c1 & H1 & F1) (c2 & H2 & F2). exists (c1 ++ c2). split.
  - by rewrite H2, H1, app_assoc.
  - by apply Forall_app.
Qed.

Lemma grows_ret {A} (a : A) : grows (ret a).
Proof. intros w. apply extends_refl. Qed.

Lemma grows_raise {A} e : grows (raise (A:=A) e).
Proof. intros w. apply extends_refl. Qed.

Lemma grows_timeout {A} : grows (timeout (A:=A)).
Proof. intros w. apply extends_refl. Qed.

Lemma grows_bind {A B} (m : M A) (k : A → M B) :
  grows m → (∀ a, grows (k a)) → grows (bind m k).
Proof.
  intros Hm Hk w. specialize (Hm w). unfold bind.
  destruct (m w) as [a w'| |]; simpl in *; try done.
  eapply extends_trans; [exact Hm|apply Hk].
Qed.

Lemma grows_emit c : is_marker c = false → grows (emit c).
Proof. intros Hc w. exists [c]. split; [done|]. by constructor. Qed.

Lemma grows_uniform a b : grows (uniform a b).
Proof.
  intros w. unfold uniform.
  destruct (random_uniform a b (rng w)). exists []. simpl.
  by rewrite app_nil_r.
Qed.

Lemma grows_float text : grows (float text).
Proof.
  unfold float. destruct (parse_float text);
    [apply grows_ret|apply grows_raise].
Qed.

Lemma grows_extract_value instruction : grows (extract_value instruction).
Proof.
  unfold extract_value.
  destruct (re_match instruction) as [[[symbol g2] [g3|]]|];
    repeat first
      [ apply grows_ret | apply grows_float | apply grows_uniform
      | apply grows_bind; [|intros ?] ].
Qed.

Lemma grows_dispatch self symbol value t : grows (dispatch self symbol value t).
Proof.
  unfold dispatch, add_mesh_instance, add_line.
  repeat first
    [ apply grows_ret | apply grows_raise | apply grows_uniform
    | by apply grows_emit
    | apply grows_bind; [|intros ?]
    | match goal with
      | |- grows (if ?b then _ else _) => destruct b
      | |- grows (match ?x with _ => _ end) => destruct x
      end ].
Qed.

Lemma grows_step self rule index t : grows (step self rule index t).
Proof.
  unfold step. apply grows_bind.
  - intros w. rewrite fetch_fetched.
    destruct (fetched rule index); apply extends_refl.
  - intros [instruction index']. apply grows_bind;
      [apply grows_extract_value|].
    intros [symbol value]. apply grows_bind; [apply grows_dispatch|].
    intros t'. apply grows_ret.
Qed.

Lemma grows_while_loop fuel self rule index t :
  grows (while_loop fuel self rule index t).
Proof.
  revert index t. induction fuel as [|fuel IH]; intros index t; simpl;
    destruct (index <? len rule);
    try apply grows_ret; try apply grows_timeout.
  apply grows_bind; [apply grows_step|]. intros [index' t']. apply IH.
Qed.

Lemma grows_for_rules fuel self strs t : grows (for_rules fuel self strs t).
Proof.
  revert t. induction strs as [|rule strs IH]; intros t; simpl;
    [apply grows_ret|].
  apply grows_bind; [apply grows_while_loop|]. intros t'. apply IH.
Qed.

Lemma for_rules_app fuel self (strs1 strs2 : list string) t w :
  for_rules fuel self (strs1 ++ strs2) t w
  = bind (for_rules fuel self strs1 t) (for_rules fuel self strs2) w.
Proof.
  revert t w. induction strs1 as [|rule strs1 IH]; intros t w; [done|].
  simpl. unfold bind.
  destruct (while_loop fuel self rule 0 t w) as [t' w'| |]; [|done|done].
  apply IH.
Qed.

(** C5. Cumulative replay.  A drawing pass first adds one start marker at
    the origin and adds no other marker afterwards; it then runs the
    loop on the strings of [resultStrs] in order, each string from index 0
    with the turtle (location, direction, stack) and the world that the
    strings before it left; and for an object made by [__init__] with
    [numIters >= 0] these strings are generations 0 to [numIters], one
    each. *)
Theorem draw_replays_every_generation (fuel : nat) (self : LSystem)
    (w : World) :
  let start := mkWorld (rng w) (scene w ++ [StartMarker origin]) in
  (∃ cmds,
     scene (world_of (draw fuel self w))
     = scene w ++ StartMarker origin :: cmds
     ∧ Forall (λ c, is_marker c = false) cmds)
  ∧ draw fuel self w
    = for_rules fuel self (resultStrs self) initial_turtle start
  ∧ (∀ before rule after t w',
       resultStrs self = before ++ rule :: after →
       for_rules fuel self before initial_turtle start = Return t w' →
       draw fuel self w
       = bind (while_loop fuel self rule 0 t) (for_rules fuel self after) w')
  ∧ (∀ n s r sl da md seed entropy w0 w1,
       LSystem_init n s r sl da md seed entropy w0 = Return self w1 →
       0 ≤ n →
       length (resultStrs self) = S (Z.to_nat n)
       ∧ ∀ i : nat, (i ≤ Z.to_nat n)%nat →
           resultStrs self !! i = Some (Nat.iter i (replaceProcess r) s)).
Proof.
  intros start.
  assert (Hdraw : draw fuel self w
    = for_rules fuel self (resultStrs self) initial_turtle start).
  { unfold draw. by rewrite (bind_Return _ _ w tt start). }
  split; [|split; [done|split]].
  - rewrite Hdraw.
    destruct (grows_for_rules fuel self (resultStrs self) initial_turtle
                start) as (cmds & Hscene & Hcmds).
    exists cmds. split; [|done].
    rewrite Hscene. simpl. by rewrite <- app_assoc.
  - intros before rule after t w' Hstrs Hbefore.
    rewrite Hdraw, Hstrs, for_rules_app.
    by rewrite (bind_Return _ _ _ _ _ Hbefore).
  - intros n s r sl da md seed entropy w0 w1 Hinit Hn.
    unfold LSystem_init in Hinit. injection Hinit as <- _. simpl.
    split; [apply generate_length|].
    intros i Hi. by apply generate_lookup.
Qed.

(** *** Forward motion *)

Ltac round extract dispatch :=
  etrans;
  [ eapply while_loop_round; [reflexivity|reflexivity|extract|dispatch]
  | simpl Z.add ].

(** The scenario ["F(2)+[F(1)]F(3)"], and its first five instructions. *)
Lemma scenario_rounds (self : LSystem) (two one three : Float)
    (position heading : Vector Float) (fuel : nat) (w : World) :
  Forall (λ symbol, mesh_dict self !! symbol = None) ["F"; "+"; "["; "]"] →
  parse_float "2" = Some two → parse_float "1" = Some one →
  parse_float "3" = Some three →
  let turned :=
    vector_rotate
      (mkEuler (float_of_Z 0) (float_of_Z 0)
         (math_radians (default_angle self))) heading in
  let p1 := vadd position (vscale heading two) in
  let pb := vadd p1 (vscale turned one) in
  let p2 := vadd p1 (vscale turned three) in
  while_loop (5 + fuel) self "F(2)+[F(1)]" 0 (mkTurtle position heading []) w
  = Return (mkTurtle p1 turned [])
      (mkWorld (rng w)
         (scene w ++ [LineSegment position p1; LineSegment p1 pb]))
  ∧ while_loop (6 + fuel) self "F(2)+[F(1)]F(3)" 0
      (mkTurtle position heading []) w
    = Return (mkTurtle p2 turned [])
        (mkWorld (rng w)
           (scene w ++ [LineSegment position p1; LineSegment p1 pb;
                        LineSegment p1 p2])).
Proof.
  intros Hreg H2 H1 H3 turned p1 pb p2.
  rewrite Forall_forall in Hreg.
  assert (HF : mesh_dict self !! "F" = None) by (apply Hreg; set_solver).
  assert (Hplus : mesh_dict self !! "+" = None) by (apply Hreg; set_solver).
  assert (Hopen : mesh_dict self !! "[" = None) by (apply Hreg; set_solver).
  assert (Hclose : mesh_dict self !! "]" = None) by (apply Hreg; set_solver).
  pose proof (rotations_lookup (math_radians (default_angle self)))
    as (Hrot & _).
  split.
  - change (5 + fuel)%nat with (S (S (S (S (S fuel))))).
    round ltac:(by apply (extract_value_single "F" "2"))
          ltac:(by apply dispatch_F).
    round ltac:(reflexivity)
          ltac:(apply dispatch_rotation; [done|set_solver|exact Hrot]).
    round ltac:(reflexivity) ltac:(by apply dispatch_push).
    round ltac:(by apply (extract_value_single "F" "1"))
          ltac:(by apply dispatch_F).
    round ltac:(reflexivity) ltac:(by rewrite dispatch_pop).
    rewrite while_loop_end by done. simpl.
    by rewrite <- app_assoc.
  - change (6 + fuel)%nat with (S (S (S (S (S (S fuel)))))).
    round ltac:(by apply (extract_value_single "F" "2"))
          ltac:(by apply dispatch_F).
    round ltac:(reflexivity)
          ltac:(apply dispatch_rotation; [done|set_solver|exact Hrot]).
    round ltac:(reflexivity) ltac:(by apply dispatch_push).
    round ltac:(by apply (extract_value_single "F" "1"))
          ltac:(by apply dispatch_F).
    round ltac:(reflexivity) ltac:(by rewrite dispatch_pop).
    round ltac:(by apply (extract_value_single "F" "3"))
          ltac:(by apply dispatch_F).
    rewrite while_loop_end by done. simpl.
    by rewrite <- !app_assoc.
Qed.

(** C2. Forward motion.  An instruction with symbol [F] takes
    [step = value if present, else step_length], adds the line segment
    from [location] to [location + direction * step] and moves
    [location] there; [f] moves [location] the same way and adds nothing;
    direction, stack and generator are untouched.  The value of
    [F(text)] is [float(text)].  On ["F(2)+[F(1)]F(3)"] from the origin
    with direction (0,1,0) and default angle 30, given that the floats
    satisfy [0 + 0*2 = 0] and [0 + 1*2 = 2], the scene gains the segment
    (0,0,0)-(0,2,0), a segment of one step from (0,2,0) along the
    direction turned by [Euler(0, 0, radians(30))], and a segment of three
    steps from (0,2,0) along the same direction; after the first five
    instructions the location is (0,2,0) again, with the turned
    direction and an empty stack. *)
Theorem forward_motion (self : LSystem) :
  mesh_dict self !! "F" = None → mesh_dict self !! "f" = None →
  (∀ value t w,
     let step :=
       match value with Some v => v | None => step_length self end in
     let new_location := vadd (location t) (vscale (direction t) step) in
     dispatch self "F" value t w
     = Return (mkTurtle new_location (direction t) (stack t))
         (mkWorld (rng w)
            (scene w ++ [LineSegment (location t) new_location]))
     ∧ dispatch self "f" value t w
       = Return (mkTurtle new_location (direction t) (stack t)) w)
  ∧ (∀ w, extract_value "F" w = Return ("F", None) w
          ∧ extract_value "f" w = Return ("f", None) w)
  ∧ (∀ text v w,
       numeric_text text = true → parse_float text = Some v →
       extract_value ("F(" +:+ text +:+ ")") w = Return ("F", Some v) w
       ∧ extract_value ("f(" +:+ text +:+ ")") w = Return ("f", Some v) w)
  ∧ (∀ two one three fuel w,
       Forall (λ symbol, mesh_dict self !! symbol = None) ["+"; "["; "]"] →
       default_angle self = float_of_Z 30 →
       parse_float "2" = Some two → parse_float "1" = Some one →
       parse_float "3" = Some three →
       let zero := float_of_Z 0 in
       fadd zero (fmul zero two) = zero →
       fadd zero (fmul (float_of_Z 1) two) = two →
       let turned :=
         vector_rotate (mkEuler zero zero (math_radians (float_of_Z 30)))
           (mkVector zero (float_of_Z 1) zero) in
       let p1 := mkVector zero two zero in
       let pb := vadd p1 (vscale turned one) in
       let p2 := vadd p1 (vscale turned three) in
       while_loop (6 + fuel) self "F(2)+[F(1)]F(3)" 0 initial_turtle w
       = Return (mkTurtle p2 turned [])
           (mkWorld (rng w)
              (scene w ++ [LineSegment origin p1; LineSegment p1 pb;
                           LineSegment p1 p2]))
       ∧ while_loop (5 + fuel) self "F(2)+[F(1)]" 0 initial_turtle w
         = Return (mkTurtle p1 turned [])
             (mkWorld (rng w)
                (scene w ++ [LineSegment origin p1; LineSegment p1 pb]))).
Proof.
  intros HF Hf. split; [|split; [|split]].
  - intros value t w step new_location. split.
    + rewrite dispatch_F by done. by destruct value.
    + rewrite dispatch_f by done. by destruct value.
  - done.
  - intros text v w Htext Hv. split.
    + by apply (extract_value_single "F" text).
    + by apply (extract_value_single "f" text).
  - intros two one three fuel w Hreg Hangle H2 H1 H3 zero Hzero Hone
      turned p1 pb p2.
    assert (Hreg' : Forall (λ symbol, mesh_dict self !! symbol = None)
                      ["F"; "+"; "["; "]"]) by (by constructor).
    destruct (scenario_rounds self two one three origin
                (mkVector zero (float_of_Z 1) zero) fuel w
                Hreg' H2 H1 H3) as [Hfive Hsix].
    rewrite Hangle in Hfive, Hsix.
    assert (Hp1 : vadd origin (vscale (mkVector zero (float_of_Z 1) zero) two)
                  = p1).
    { unfold vadd, vscale, origin. simpl. fold zero.
      by rewrite Hzero, Hone. }
    rewrite Hp1 in Hfive, Hsix. by split.
Qed.

End Properties.

(** * Further properties of the grammar engine *)

Lemma replace_chr_insert_long (rules : gmap string string) (k v : string)
    (c : ascii) :
  String.length k ≠ 1%nat →
  replace (<[k := v]> rules) (chr c) = replace rules (chr c).
Proof.
  intros Hk. unfold replace. rewrite lookup_insert_ne; [done|].
  intros ->. by apply Hk.
Qed.

Lemma replaceProcess_ext (rules1 rules2 : gmap string string) (s : string) :
  (∀ c, replace rules1 (chr c) = replace rules2 (chr c)) →
  replaceProcess rules1 s = replaceProcess rules2 s.
Proof.
  intros Hext. unfold replaceProcess. f_equal.
  induction s as [|c s IH]; simpl; [done|]. rewrite Hext. f_equal.
  apply IH.
Qed.

Lemma iter_ext {A} (f g : A → A) (n : nat) (x : A) :
  (∀ y, f y = g y) → Nat.iter n f x = Nat.iter n g x.
Proof. intros Hfg. induction n as [|n IH]; simpl; [done|]. by rewrite IH. Qed.

Lemma generate_ext (rules1 rules2 : gmap string string) numIters startStr :
  (∀ s, replaceProcess rules1 s = replaceProcess rules2 s) →
  generate numIters startStr rules1 = generate numIters startStr rules2.
Proof.
  intros Hext. unfold generate. rewrite !generate_loop_spec. f_equal.
  apply list_fmap_ext. intros _ k _. by apply iter_ext.
Qed.

Lemma replaceProcess_cons rules (c : ascii) (s : string) :
  replaceProcess rules (String c s)
  = replace rules (chr c) +:+ replaceProcess rules s.
Proof. reflexivity. Qed.

(** X1. A string none of whose characters has a rule is rewritten to
    itself, so every generation is the start string. *)
Theorem unruled_string_is_fixed (rules : gmap string string) (s : string)
    (numIters : Z) :
  Forall (λ ch, rules !! ch = None) (chars s) →
  replaceProcess rules s = s
  ∧ generate numIters s rules = replicate (S (Z.to_nat numIters)) s.
Proof.
  intros Hnone.
  assert (Hfix : replaceProcess rules s = s).
  { induction s as [|c s IH]; [done|]. simpl in Hnone.
    apply Forall_cons in Hnone as [Hc Hs].
    rewrite replaceProcess_cons, (IH Hs). unfold replace. by rewrite Hc. }
  split; [done|].
  unfold generate. rewrite generate_loop_spec.
  change (S (Z.to_nat numIters)) with (1 + Z.to_nat numIters)%nat.
  rewrite replicate_add. simpl. f_equal.
  generalize 1%nat as start.
  induction (Z.to_nat numIters) as [|n IH]; intros start; simpl; [done|].
  f_equal; [|apply IH].
  clear IH. induction start as [|k IHk]; simpl; [done|]. by rewrite IHk.
Qed.

(** X2. A rule whose key is not exactly one character never fires: adding
    it changes neither [replaceProcess] nor the production sequence. *)
Theorem long_key_never_fires (rules : gmap string string) (k v : string) :
  String.length k ≠ 1%nat →
  (∀ s, replaceProcess (<[k := v]> rules) s = replaceProcess rules s)
  ∧ (∀ numIters startStr,
       generate numIters startStr (<[k := v]> rules)
       = generate numIters startStr rules).
Proof.
  intros Hk.
  assert (Hrp : ∀ s,
    replaceProcess (<[k := v]> rules) s = replaceProcess rules s).
  { intros s. apply replaceProcess_ext. intros c.
    by apply replace_chr_insert_long. }
  split; [done|]. intros numIters startStr. by apply generate_ext.
Qed.

(** X3. One more iteration appends one generation, the rewriting of the
    last one, and leaves the earlier generations as they are; and the last
    generation of [n + m] iterations is the last generation of [m]
    iterations started from the last generation of [n]. *)
Theorem generate_extends (rules : gmap string string) (startStr : string)
    (n m : Z) :
  0 ≤ n → 0 ≤ m →
  generate (n + 1) startStr rules
  = generate n startStr rules
    ++ [replaceProcess rules
          (default startStr (last (generate n startStr rules)))]
  ∧ last (generate (n + m) startStr rules)
    = last (generate m
              (default startStr (last (generate n startStr rules))) rules).
Proof.
  intros Hn Hm.
  assert (Hlast : ∀ k s, 0 ≤ k →
    last (generate k s rules)
    = Some (Nat.iter (Z.to_nat k) (replaceProcess rules) s)).
  { intros k s Hk. rewrite last_lookup, generate_length. simpl.
    apply generate_lookup. lia. }
  split.
  - rewrite (Hlast n startStr Hn). simpl.
    unfold generate. rewrite !generate_loop_spec.
    replace (Z.to_nat (n + 1)) with (Z.to_nat n + 1)%nat by lia.
    by rewrite seq_app, fmap_app.
  - rewrite (Hlast n startStr Hn), (Hlast (n + m)) by lia. simpl.
    rewrite (Hlast m) by lia. f_equal.
    replace (Z.to_nat (n + m)) with (Z.to_nat m + Z.to_nat n)%nat by lia.
    apply Nat.iter_add.
Qed.

Lemma append_length_le (s1 s2 : string) :
  String.length (s1 +:+ s2) = (String.length s1 + String.length s2)%nat.
Proof.
  induction s1 as [|c s1 IH]; [done|]. rewrite append_cons. simpl.
  by rewrite IH.
Qed.

(** X4. When no rule has an empty body, rewriting never shortens a string,
    so the generations never get shorter. *)
Theorem generations_never_shrink (rules : gmap string string)
    (startStr : string) (numIters : Z) :
  (∀ k v, rules !! k = Some v → v ≠ "") →
  (∀ s, (String.length s ≤ String.length (replaceProcess rules s))%nat)
  ∧ (∀ i g g' : _,
       generate numIters startStr rules !! i = Some g →
       generate numIters startStr rules !! S i = Some g' →
       (String.length g ≤ String.length g')%nat).
Proof.
  intros Hbody.
  assert (Hgrow : ∀ s,
    (String.length s ≤ String.length (replaceProcess rules s))%nat).
  { intros s. induction s as [|c s IH]; [done|].
    rewrite replaceProcess_cons, append_length_le. simpl.
    assert (1 ≤ String.length (replace rules (chr c)))%nat; [|lia].
    unfold replace. destruct (rules !! chr c) as [v|] eqn:Hv; simpl; [|lia].
    specialize (Hbody _ _ Hv). destruct v; [done|simpl; lia]. }
  split; [done|].
  intros i g g' Hg Hg'.
  assert (Hi : (S i ≤ Z.to_nat numIters)%nat).
  { apply lookup_lt_Some in Hg'. rewrite generate_length in Hg'. lia. }
  rewrite generate_lookup in Hg by lia. rewrite generate_lookup in Hg' by lia.
  injection Hg as <-. injection Hg' as <-. simpl. apply Hgrow.
Qed.

(** * Further properties of the fetch *)

Lemma take_drop (n : nat) (s : string) : take n s +:+ drop n s = s.
Proof.
  revert s. induction n as [|n IH]; intros [|c s]; simpl; try done.
  rewrite append_cons. by rewrite IH.
Qed.

Lemma drop_drop (a b : nat) (s : string) : drop a (drop b s) = drop (b + a) s.
Proof.
  revert s. induction b as [|b IH]; intros s; [done|].
  destruct s as [|c s]; simpl; [by destruct a|]. apply IH.
Qed.

Lemma drop_ge (n : nat) (s : string) :
  (String.length s ≤ n)%nat → drop n s = "".
Proof.
  revert s. induction n as [|n IH]; intros [|c s] Hn; simpl in *;
    try done; [lia|]. apply IH. lia.
Qed.

Lemma drop_get (n : nat) (s : string) (c : ascii) :
  String.get n s = Some c → drop n s = String c (drop (S n) s).
Proof.
  revert s. induction n as [|n IH]; intros [|x s] Hget; simpl in *;
    try done.
  - by injection Hget as ->.
  - rewrite (IH s Hget). by destruct s.
Qed.

Lemma get_drop (n k : nat) (s : string) :
  String.get k (drop n s) = String.get (n + k) s.
Proof.
  revert s. induction n as [|n IH]; intros s; [done|].
  destruct s as [|c s]; simpl; [by destruct k|]. apply IH.
Qed.

Lemma lacks_get (c : ascii) (s : string) (n : nat) :
  lacks c s → String.get n s ≠ Some c.
Proof.
  unfold lacks. revert n. induction s as [|x s IH]; intros n Hl; [done|].
  simpl in Hl. destruct (Ascii.eqb_spec x c) as [->|Hx]; [done|].
  destruct (first_index c s) eqn:Hf; [done|].
  destruct n as [|n]; simpl; [congruence|]. by apply IH.
Qed.

Lemma take_single (n : nat) (s : string) (c : ascii) :
  take n s = chr c → String.get 0 s = Some c.
Proof.
  destruct n as [|n], s as [|x s]; simpl; try done.
  intros Heq. by injection Heq as ->.
Qed.

(** What a fetch in range gives: either the parameter list is not closed
    and the result is the empty instruction with index [-1], or the
    instruction is the non-empty piece of the string from [index] to the
    returned index. *)
Lemma fetched_spec (rule : string) (index : Z) :
  0 ≤ index < len rule →
  ∃ instruction index',
    fetched rule index = Some (instruction, index')
    ∧ ((index' = -1 ∧ instruction = "")
       ∨ (index ≤ index'
          ∧ instruction ≠ ""
          ∧ instruction +:+ drop (Z.to_nat (index' + 1)) rule
            = drop (Z.to_nat index) rule)).
Proof.
  intros Hindex. unfold fetched.
  destruct (item_in_range rule index Hindex) as [c Hc].
  rewrite Hc. cbn [mbind option_bind].
  rewrite item_nonneg in Hc by lia.
  destruct (String.get (Z.to_nat index) rule) as [c'|] eqn:Hget; [|done].
  injection Hc as ->.
  destruct ((index + 2 <? len rule)
            && bool_decide (item rule (index + 1) = Some "(")).
  - eexists _, _. split; [done|]. unfold find, slice.
    destruct (first_index ")" (drop (Z.to_nat index) rule)) as [k|] eqn:Hk.
    + right. split; [lia|].
      replace (Z.to_nat (index + Z.of_nat k + 1 - index)) with (S k) by lia.
      replace (Z.to_nat (index + Z.of_nat k + 1))
        with (Z.to_nat index + S k)%nat by lia.
      rewrite <- drop_drop. split; [|apply take_drop].
      rewrite (drop_get _ _ _ Hget). done.
    + left. split; [done|].
      by replace (Z.to_nat (-1 + 1 - index)) with 0%nat by lia.
  - eexists _, _. split; [done|]. right. split; [lia|]. split; [done|].
    replace (Z.to_nat (index + 1)) with (S (Z.to_nat index)) by lia.
    by rewrite (drop_get _ _ _ Hget).
Qed.

Lemma walk_join (rule : string) (fuel : nat) (index : Z) (toks : list string) :
  0 ≤ index → walk fuel rule index = Some toks →
  join toks = drop (Z.to_nat index) rule ∧ Forall (λ tok, tok ≠ "") toks.
Proof.
  revert index toks. induction fuel as [|fuel IH]; intros index toks Hindex;
    simpl; destruct (Z.ltb_spec index (len rule)) as [Hlt|Hge];
    intros Hwalk; try done.
  - injection Hwalk as <-. split; [|done]. simpl.
    symmetry. apply drop_ge. unfold len in Hge. lia.
  - destruct (fetched_spec rule index ltac:(lia))
      as (ins & idx' & Hf & [[-> ->]|(Hle & Hne & Hcut)]);
      rewrite Hf in Hwalk; [done|].
    destruct (Z.ltb_spec idx' 0); [lia|].
    destruct (walk fuel rule (idx' + 1)) as [toks'|] eqn:Hw; [|done].
    injection Hwalk as <-.
    destruct (IH (idx' + 1) toks' ltac:(lia) Hw) as [Hjoin Hall].
    split; [|by constructor]. simpl. by rewrite Hjoin.
  - injection Hwalk as <-. split; [|done]. simpl.
    symmetry. apply drop_ge. unfold len in Hge. lia.
Qed.

(** X5. Fetching loses nothing: when the walk gets through a string, the
    instructions, joined in order, are the string again, and none of them
    is empty. *)
Theorem instructions_join (rule : string) (toks : list string) :
  instructions rule = Some toks →
  join toks = rule ∧ Forall (λ tok, tok ≠ "") toks.
Proof.
  intros Htoks.
  by apply (walk_join rule (String.length rule) 0 toks).
Qed.

Lemma walk_no_paren (rule : string) (fuel : nat) (index : Z) :
  lacks "(" rule →
  0 ≤ index → (Z.to_nat (len rule - index) ≤ fuel)%nat →
  walk fuel rule index = Some (chars (drop (Z.to_nat index) rule)).
Proof.
  intros Hlacks. revert index.
  induction fuel as [|fuel IH]; intros index Hindex Hfuel; simpl;
    destruct (Z.ltb_spec index (len rule)) as [Hlt|Hge]; try lia.
  - rewrite drop_ge; [done|]. unfold len in Hge. lia.
  - destruct (item_in_range rule index ltac:(lia)) as [c Hc].
    unfold fetched. rewrite Hc. cbn [mbind option_bind].
    assert (Hcond : (index + 2 <? len rule)
                    && bool_decide (item rule (index + 1) = Some "(")
                    = false).
    { apply andb_false_intro2. apply bool_decide_eq_false.
      rewrite item_nonneg by lia. intros Hopen.
      destruct (String.get (Z.to_nat (index + 1)) rule) as [x|] eqn:Hget;
        [|done].
      injection Hopen as ->. by apply (lacks_get _ _ _ Hlacks) in Hget. }
    rewrite Hcond.
    destruct (Z.ltb_spec index 0); [lia|].
    rewrite IH by lia.
    rewrite item_nonneg in Hc by lia.
    destruct (String.get (Z.to_nat index) rule) as [c'|] eqn:Hget; [|done].
    injection Hc as ->.
    rewrite (drop_get _ _ _ Hget).
    by replace (Z.to_nat (index + 1)) with (S (Z.to_nat index)) by lia.
  - rewrite drop_ge; [done|]. unfold len in Hge. lia.
Qed.

Lemma instructions_chars (rule : string) :
  lacks "(" rule → instructions rule = Some (chars rule).
Proof.
  intros Hlacks. unfold instructions.
  rewrite (walk_no_paren rule _ 0 Hlacks); [done|lia|unfold len; lia].
Qed.

(** X6. In a string without an opening parenthesis every character is an
    instruction of its own, and no fetch fails. *)
Theorem instructions_without_parenthesis (rule : string) :
  lacks "(" rule →
  instructions rule = Some (chars rule)
  ∧ length (chars rule) = String.length rule.
Proof.
  intros Hlacks. split; [by apply instructions_chars|].
  clear. induction rule as [|c rule IH]; simpl; [done|]. by rewrite IH.
Qed.

(** * Rewriting and brackets *)

Lemma nesting_app (d : nat) (l1 l2 : list string) :
  nesting d (l1 ++ l2) = nesting d l1 ≫= λ d', nesting d' l2.
Proof.
  revert d. induction l1 as [|x l1 IH]; intros d; simpl; [done|].
  destruct (String.eqb x "["); [apply IH|].
  destruct (String.eqb x "]"); [|apply IH].
  destruct d; [done|apply IH].
Qed.

Lemma nesting_shift (k d d' : nat) (l : list string) :
  nesting d l = Some d' → nesting (k + d) l = Some (k + d')%nat.
Proof.
  revert d. induction l as [|x l IH]; intros d; simpl.
  { intros Heq. by injection Heq as <-. }
  destruct (String.eqb x "[").
  { intros Hn. rewrite <- (IH _ Hn). f_equal. lia. }
  destruct (String.eqb x "]"); [|apply IH].
  destruct d as [|d]; [done|]. intros Hn.
  replace (k + S d)%nat with (S (k + d)) by lia. by apply IH.
Qed.

Lemma nesting_cons (d : nat) (x : string) (l : list string) :
  nesting d (x :: l)
  = if String.eqb x "[" then nesting (S d) l
    else if String.eqb x "]" then
      match d with
      | O => None
      | S d' => nesting d' l
      end
    else nesting d l.
Proof. reflexivity. Qed.

Lemma lacks_app (c : ascii) (a b : string) :
  lacks c (a +:+ b) ↔ lacks c a ∧ lacks c b.
Proof.
  unfold lacks. rewrite first_index_app.
  destruct (first_index c a), (first_index c b); simpl; split;
    try done; by intros [? ?].
Qed.

Lemma replaceProcess_lacks (c : ascii) (rules : gmap string string)
    (s : string) :
  (∀ k v, rules !! k = Some v → lacks c v) →
  lacks c s → lacks c (replaceProcess rules s).
Proof.
  intros Hbody. induction s as [|x s IH]; intros Hs; [done|].
  rewrite replaceProcess_cons. apply lacks_app.
  change (String x s) with (chr x +:+ s) in Hs.
  apply lacks_app in Hs as [Hx Hs]. split; [|by apply IH].
  unfold replace. destruct (rules !! chr x) as [v|] eqn:Hv; simpl; [|done].
  by apply (Hbody _ _ Hv).
Qed.

Lemma replaceProcess_nesting (rules : gmap string string) (s : string)
    (d : nat) :
  rules !! "[" = None → rules !! "]" = None →
  (∀ k v, rules !! k = Some v → balanced (chars v)) →
  nesting d (chars (replaceProcess rules s)) = nesting d (chars s).
Proof.
  intros Hopen Hclose Hbody. revert d.
  induction s as [|c s IH]; intros d; [done|].
  rewrite replaceProcess_cons, chars_app, nesting_app.
  change (chars (String c s)) with (chr c :: chars s).
  rewrite (nesting_cons d (chr c)).
  unfold replace. destruct (rules !! chr c) as [v|] eqn:Hv;
    cbn [default from_option id].
  - pose proof (nesting_shift d _ _ _ (Hbody _ _ Hv)) as Hd.
    rewrite !Nat.add_0_r in Hd. rewrite Hd. cbn [mbind option_bind].
    destruct (String.eqb_spec (chr c) "[") as [Heq|_]; [congruence|].
    destruct (String.eqb_spec (chr c) "]") as [Heq|_]; [congruence|].
    apply IH.
  - change (chars (chr c)) with [chr c]. rewrite nesting_cons.
    destruct (String.eqb (chr c) "["); [apply IH|].
    destruct (String.eqb (chr c) "]"); [|apply IH].
    destruct d; [done|apply IH].
Qed.

Lemma generate_Forall (P : string → Prop) (rules : gmap string string)
    (startStr : string) (numIters : Z) :
  P startStr → (∀ s, P s → P (replaceProcess rules s)) →
  Forall P (generate numIters startStr rules).
Proof.
  intros Hstart Hstep. unfold generate. rewrite generate_loop_spec.
  apply Forall_cons. split; [done|].
  apply Forall_fmap, Forall_forall. intros k _. simpl.
  induction k as [|k IH]; simpl; [done|]. by apply Hstep.
Qed.

(** X15. Rewriting keeps the brackets in order.  When no rule rewrites a
    bracket and every rule body has its brackets in equal counts and valid
    nesting, a string and its rewriting reach the same bracket depth from
    any depth (or both close a bracket too many); so every generation of a
    balanced start string is balanced. *)
Theorem rewriting_preserves_nesting (rules : gmap string string)
    (startStr : string) (numIters : Z) :
  rules !! "[" = None → rules !! "]" = None →
  (∀ k v, rules !! k = Some v → balanced (chars v)) →
  (∀ s d, nesting d (chars (replaceProcess rules s)) = nesting d (chars s))
  ∧ (balanced (chars startStr) →
     Forall (λ g, balanced (chars g)) (generate numIters startStr rules)).
Proof.
  intros Hopen Hclose Hbody. split.
  { intros s d. by apply replaceProcess_nesting. }
  intros Hstart. apply generate_Forall; [done|].
  intros s Hs. unfold balanced. by rewrite replaceProcess_nesting.
Qed.

(** * Further properties of the interpreter *)

Section ExtraProperties.
Context `{Host}.

Lemma count_app {A} (p : A → bool) (l1 l2 : list A) :
  count p (l1 ++ l2) = (count p l1 + count p l2)%nat.
Proof. unfold count. by rewrite List.filter_app, length_app. Qed.

(** *** [extract_value] *)

Lemma extract_value_Return instruction w symbol value w' :
  extract_value instruction w = Return (symbol, value) w' →
  symbol = symbol_of instruction
  ∧ scene w' = scene w
  ∧ (value = None ↔ re_match instruction = None)
  ∧ (w' ≠ w → ∃ s g2 g3, re_match instruction = Some (s, g2, Some g3)).
Proof.
  unfold extract_value, symbol_of.
  destruct (re_match instruction) as [[[sym g2] [g3|]]|];
    unfold bind, float, uniform, ret, raise.
  - destruct (parse_float g2) as [v2|]; [|done].
    destruct (parse_float g3) as [v3|]; [|done].
    destruct (random_uniform v2 v3 (rng w)) as [r g].
    intros Heq. injection Heq as <- <- <-. simpl.
    repeat split; try done. intros _. by eexists _, _, _.
  - destruct (parse_float g2) as [v2|]; [|done].
    intros Heq. injection Heq as <- <- <-. repeat split; done.
  - intros Heq. injection Heq as <- <- <-. repeat split; done.
Qed.

Lemma extract_value_Return_parseable instruction w x w' :
  extract_value instruction w = Return x w' → parseable instruction = true.
Proof.
  unfold extract_value, parseable.
  destruct (re_match instruction) as [[[sym g2] [g3|]]|];
    unfold bind, float, raise; simpl; [| |done].
  - destruct (parse_float g2) as [v2|]; [|done].
    destruct (parse_float g3) as [v3|]; [|done]. intros _.
    by rewrite !bool_decide_eq_true_2 by (by eexists).
  - destruct (parse_float g2) as [v2|]; [|done]. intros _.
    by rewrite !bool_decide_eq_true_2 by (by eexists).
Qed.

(** X7. [extract_value] raises exactly when the pattern matches and
    [float] rejects a group, and then it raises [ValueError] with the
    world untouched (no random number is drawn first).  Otherwise it
    returns the symbol of the instruction, with a value exactly when the
    pattern matched; the scene is never touched, and the generator only
    by an instruction with a range. *)
Theorem extract_value_outcomes (instruction : string) (w : World) :
  (parseable instruction = false →
   extract_value instruction w = Raise ValueError w)
  ∧ (parseable instruction = true →
     ∃ value w',
       extract_value instruction w
       = Return (symbol_of instruction, value) w'
       ∧ scene w' = scene w
       ∧ (value = None ↔ re_match instruction = None)
       ∧ (w' ≠ w →
          ∃ s g2 g3, re_match instruction = Some (s, g2, Some g3))).
Proof.
  split; intros Hp.
  - destruct (extract_value_cases instruction w)
      as [Herr|(symbol & value & w' & Hex & _)]; [done|].
    apply extract_value_Return_parseable in Hex. congruence.
  - destruct (extract_value_parseable instruction w Hp)
      as (symbol & value & w' & Hex & _).
    destruct (extract_value_Return _ _ _ _ _ Hex) as (-> & Hs & Hv & Hw).
    by exists value, w'.
Qed.

(** *** The branches of [draw] *)

Lemma dispatch_registered self symbol entry value t w :
  mesh_dict self !! symbol = Some entry →
  dispatch self symbol value t w
  = bind (add_mesh_instance self symbol (location t) (direction t))
      (λ _, ret t) w.
Proof.
  intros Hmesh. unfold dispatch. rewrite Hmesh.
  by destruct (decide (is_Some (Some entry))) as [_|[]].
Qed.

(** A symbol bound to a mesh is an instance symbol and nothing else: the
    turtle stays, and the scene gains one placement of the mesh at the
    current location, turned by three numbers drawn in the order x, y,
    z. *)
Lemma dispatch_places self symbol mesh value t w :
  mesh_dict self !! symbol = Some (Some mesh) →
  let x := random_uniform (float_of_Z 0) two_pi (rng w) in
  let y := random_uniform (float_of_Z 0) two_pi x.2 in
  let z := random_uniform (float_of_Z 0) two_pi y.2 in
  dispatch self symbol value t w
  = Return t
      (mkWorld z.2
         (scene w
          ++ [InstancePlacement symbol mesh (location t)
                (mkEuler x.1 y.1 z.1)])).
Proof.
  intros Hmesh x y z. rewrite (dispatch_registered _ _ _ _ _ _ Hmesh).
  unfold add_mesh_instance. rewrite Hmesh.
  unfold bind, uniform, emit, ret. subst x y z.
  destruct (random_uniform (float_of_Z 0) two_pi (rng w)) as [rx g1].
  simpl.
  destruct (random_uniform (float_of_Z 0) two_pi g1) as [ry g2]. simpl.
  by destruct (random_uniform (float_of_Z 0) two_pi g2) as [rz g3].
Qed.

(** The raises of the chain: the pop on an empty stack, and the copy of
    a mesh that is [None]. *)
Lemma dispatch_raises self symbol value t w e w' :
  dispatch self symbol value t w = Raise e w' →
  (e = IndexError ∧ symbol = "]" ∧ stack t = [] ∧ w' = w)
  ∨ (e = AttributeError ∧ mesh_dict self !! symbol = Some None ∧ w' = w).
Proof.
  destruct (mesh_dict self !! symbol) as [entry|] eqn:Hmesh.
  { pose proof (dispatch_registered_outcomes self symbol entry value t w
                  Hmesh) as Hout.
    destruct entry as [mesh|].
    - by destruct Hout as (rot & g & ->).
    - rewrite Hout. intros Heq. injection Heq as <- <-. by right. }
  unfold dispatch. rewrite Hmesh.
  destruct (decide (is_Some None)) as [[? ?]|_]; [done|].
  destruct (String.eqb symbol "F"); [done|].
  destruct (String.eqb symbol "f"); [done|].
  destruct (String.eqb symbol "["); [done|].
  destruct (String.eqb_spec symbol "]") as [->|_]; [|done].
  destruct (stack t) as [|[l d] s]; [|done].
  unfold raise. intros Heq. injection Heq as <- <-. by left.
Qed.

(** What one instruction adds to the scene. *)
Lemma dispatch_scene self symbol value t w t' w' :
  dispatch self symbol value t w = Return t' w' →
  ∃ cmds,
    scene w' = scene w ++ cmds
    ∧ count is_line cmds
      = (if bool_decide (mesh_dict self !! symbol = None)
            && String.eqb symbol "F" then 1 else 0)%nat
    ∧ count is_placement cmds
      = (if bool_decide (is_Some (mesh_dict self !! symbol))
         then 1 else 0)%nat
    ∧ length cmds = (count is_line cmds + count is_placement cmds)%nat.
Proof.
  destruct (mesh_dict self !! symbol) as [[mesh|]|] eqn:Hmesh.
  { rewrite (dispatch_places _ _ _ _ _ _ Hmesh).
    intros Heq. injection Heq as <- <-. eexists. split; [done|].
    rewrite bool_decide_eq_false_2 by done.
    rewrite bool_decide_eq_true_2 by (by eexists). done. }
  { by rewrite (dispatch_registered_outcomes self symbol None value t w
                  Hmesh). }
  rewrite bool_decide_eq_true_2 by done.
  rewrite bool_decide_eq_false_2 by (by intros [? ?]).
  unfold dispatch. rewrite Hmesh.
  destruct (decide (is_Some None)) as [[? ?]|_]; [done|].
  destruct (String.eqb symbol "F").
  { unfold bind, add_line, emit, ret. intros Heq.
    injection Heq as <- <-. eexists. split; [done|]. done. }
  simpl.
  assert (Hsame : w' = w → ∃ cmds : list Command,
    scene w' = scene w ++ cmds ∧ count is_line cmds = 0%nat
    ∧ count is_placement cmds = 0%nat
    ∧ length cmds = (count is_line cmds + count is_placement cmds)%nat).
  { intros ->. exists []. by rewrite app_nil_r. }
  destruct (String.eqb symbol "f");
    [intros Heq; injection Heq as <- <-; by apply Hsame|].
  destruct (String.eqb symbol "[");
    [intros Heq; injection Heq as <- <-; by apply Hsame|].
  destruct (String.eqb symbol "]").
  { destruct (stack t) as [|[l d] s]; [done|].
    intros Heq; injection Heq as <- <-; by apply Hsame. }
  intros Heq; injection Heq as <- <-; by apply Hsame.
Qed.

(** *** Whole strings *)

Lemma count_cons {A} (p : A → bool) (x : A) (l : list A) :
  count p (x :: l) = ((if p x then 1 else 0) + count p l)%nat.
Proof. unfold count. simpl. by destruct (p x). Qed.

Lemma interpret_scene self (toks : list string) t w t' w' :
  interpret self toks t w = Return t' w' →
  ∃ cmds,
    scene w' = scene w ++ cmds
    ∧ count is_line cmds = count (draws_line self) toks
    ∧ count is_placement cmds = count (places self) toks
    ∧ length cmds = (count is_line cmds + count is_placement cmds)%nat.
Proof.
  revert t w. induction toks as [|tok toks IH]; intros t w Hrun.
  { injection Hrun as <- <-. exists []. by rewrite app_nil_r. }
  simpl in Hrun. unfold bind in Hrun.
  destruct (extract_value tok w) as [[symbol value] w1| |] eqn:Hex;
    [|done|done].
  destruct (dispatch self symbol value t w1) as [t1 w2| |] eqn:Hd;
    [|done|done].
  destruct (extract_value_Return _ _ _ _ _ Hex) as (-> & Hs1 & _).
  destruct (dispatch_scene _ _ _ _ _ _ _ Hd)
    as (c1 & Hs2 & Hl1 & Hp1 & Hn1).
  destruct (IH _ _ Hrun) as (c2 & Hs3 & Hl2 & Hp2 & Hn2).
  exists (c1 ++ c2). rewrite !count_app, !count_cons, length_app.
  unfold draws_line, places in *.
  split; [by rewrite Hs3, Hs2, Hs1, app_assoc|]. lia.
Qed.

Lemma interpret_no_timeout self (toks : list string) t w w' :
  interpret self toks t w ≠ Timeout w'.
Proof.
  revert t w. induction toks as [|tok toks IH]; intros t w; [done|].
  simpl. unfold bind.
  destruct (extract_value_cases tok w)
    as [->|(symbol & value & w1 & -> & _)]; [done|].
  destruct (dispatch self symbol value t w1) as [t1 w2|e w2|w2] eqn:Hd;
    [apply IH|done|].
  exfalso. revert Hd.
  destruct (mesh_dict self !! symbol) as [entry|] eqn:Hm.
  { pose proof (dispatch_registered_outcomes self symbol entry value t w1
                  Hm) as Hout.
    destruct entry as [mesh|]; [|by rewrite Hout].
    by destruct Hout as (rot & g & ->). }
  unfold dispatch. rewrite Hm.
  destruct (decide (is_Some None)) as [[? ?]|_]; [done|].
  repeat match goal with
  | |- context [String.eqb symbol ?s] => destruct (String.eqb symbol s)
  end; try done.
  by destruct (stack t) as [|[? ?] ?].
Qed.

(** X9. One object per drawing instruction.  When the loop returns, the
    scene is the old scene followed by new objects: as many line segments
    as there are instructions with symbol [F] that is not registered, as
    many placements as there are instructions with a registered symbol,
    and nothing else. *)
Theorem one_object_per_drawing_instruction (self : LSystem)
    (rule : string) (toks : list string) (fuel : nat) (t t' : Turtle)
    (w w' : World) :
  instructions rule = Some toks → (String.length rule ≤ fuel)%nat →
  while_loop fuel self rule 0 t w = Return t' w' →
  ∃ cmds,
    scene w' = scene w ++ cmds
    ∧ count is_line cmds = count (draws_line self) toks
    ∧ count is_placement cmds = count (places self) toks
    ∧ length cmds = (count is_line cmds + count is_placement cmds)%nat.
Proof.
  intros Htoks Hfuel.
  rewrite (while_loop_instructions _ _ _ _ _ _ Htoks Hfuel).
  apply interpret_scene.
Qed.

(** X10. Termination.  When every opening parenthesis of the string has a
    closing one later on, the loop ends within [len(rule)] rounds: it
    never runs out of fuel, and more fuel changes nothing. *)
Theorem loop_ends_within_length (self : LSystem) (rule : string)
    (fuel : nat) (t : Turtle) (w : World) :
  params_closed rule = true → (String.length rule ≤ fuel)%nat →
  while_loop fuel self rule 0 t w
  = while_loop (String.length rule) self rule 0 t w
  ∧ ∀ w', while_loop fuel self rule 0 t w ≠ Timeout w'.
Proof.
  intros Hclosed Hfuel.
  destruct (instructions_total rule Hclosed) as [toks Htoks].
  rewrite (while_loop_instructions _ _ _ _ _ _ Htoks Hfuel).
  rewrite (while_loop_instructions _ _ _ _ _ _ Htoks (le_n _)).
  split; [done|]. intros w'. apply interpret_no_timeout.
Qed.

(** X11. Branches left open stay on the stack.  When the brackets of the
    instructions never close more than was opened and end at depth
    [depth] (and no key of [mesh_dict] is bound to [None]), the loop
    returns with the stack it started with under [depth] new entries:
    nothing checks that the stack is empty at the end of a string. *)
Theorem open_branches_stay_on_stack (self : LSystem) (rule : string)
    (toks : list string) (depth fuel : nat) (t : Turtle) (w : World) :
  mesh_dict self !! "[" = None → mesh_dict self !! "]" = None →
  meshes_loaded self →
  instructions rule = Some toks → (String.length rule ≤ fuel)%nat →
  forallb parseable toks = true →
  nesting 0 toks = Some depth →
  ∃ t' w' above,
    while_loop fuel self rule 0 t w = Return t' w'
    ∧ stack t' = above ++ stack t ∧ length above = depth.
Proof.
  intros Hopen Hclose Hloaded Htoks Hfuel Hparse Hnest.
  rewrite (while_loop_instructions _ _ _ _ _ _ Htoks Hfuel).
  by apply (interpret_nesting self toks Hopen Hclose Hloaded Hparse []
              (stack t)).
Qed.

Lemma interpret_pop_below self (toks : list string) :
  mesh_dict self !! "[" = None → mesh_dict self !! "]" = None →
  meshes_loaded self →
  forallb parseable toks = true →
  ∀ t w,
    nesting (length (stack t)) toks = None →
    ∃ w', interpret self toks t w = Raise IndexError w'.
Proof.
  intros Hopen Hclose Hloaded.
  induction toks as [|tok toks IH]; intros Hparse t w Hnest; simpl in *;
    [done|].
  apply andb_prop in Hparse as [Hp Hparse].
  destruct (extract_value_parseable tok w Hp)
    as (symbol & value & w1 & Hex & _ & Ho & Hc).
  rewrite (bind_Return _ _ _ _ _ Hex).
  destruct (String.eqb_spec tok "[") as [->|Hno].
  { rewrite (proj2 Ho eq_refl).
    rewrite (bind_Return _ _ _ _ _ (dispatch_push _ _ _ _ Hopen)).
    by apply (IH Hparse). }
  destruct (String.eqb_spec tok "]") as [->|Hnc].
  { rewrite (proj2 Hc eq_refl).
    destruct (stack t) as [|[l d] below] eqn:Hstack.
    - exists w1. apply bind_Raise. by rewrite dispatch_pop, Hstack.
    - assert (Hpop : dispatch self "]" value t w1
                     = Return (mkTurtle l d below) w1).
      { rewrite dispatch_pop by done. by rewrite Hstack. }
      rewrite (bind_Return _ _ _ _ _ Hpop). by apply (IH Hparse). }
  destruct (dispatch_keeps_stack self symbol value t w1)
    as (t' & w2 & Hd & Hs); [apply Hloaded|tauto|tauto|].
  rewrite (bind_Return _ _ _ _ _ Hd).
  apply (IH Hparse). by rewrite Hs.
Qed.

(** X12. A closing bracket too many.  When the brackets of the
    instructions close more than the stack holds (counting the entries
    it starts with), and no key of [mesh_dict] is bound to [None], the
    loop raises [IndexError]; what was added to the scene before stays. *)
Theorem pop_below_stack_raises (self : LSystem) (rule : string)
    (toks : list string) (fuel : nat) (t : Turtle) (w : World) :
  mesh_dict self !! "[" = None → mesh_dict self !! "]" = None →
  meshes_loaded self →
  instructions rule = Some toks → (String.length rule ≤ fuel)%nat →
  forallb parseable toks = true →
  nesting (length (stack t)) toks = None →
  ∃ w', while_loop fuel self rule 0 t w = Raise IndexError w'
        ∧ extends w w'.
Proof.
  intros Hopen Hclose Hloaded Htoks Hfuel Hparse Hnest.
  destruct (interpret_pop_below self toks Hopen Hclose Hloaded Hparse t w
              Hnest) as [w' Hrun].
  exists w'. rewrite (while_loop_instructions _ _ _ _ _ _ Htoks Hfuel).
  split; [done|].
  pose proof (grows_while_loop fuel self rule 0 t w) as Hgrow.
  rewrite (while_loop_instructions _ _ _ _ _ _ Htoks Hfuel) in Hgrow.
  by rewrite Hrun in Hgrow.
Qed.

(** *** Errors *)

Lemma fetched_lacks (c : ascii) (rule : string) (index : Z) ins idx' :
  lacks c rule → 0 ≤ index < len rule →
  fetched rule index = Some (ins, idx') → ins ≠ chr c.
Proof.
  intros Hlacks Hindex Hf.
  destruct (fetched_spec rule index Hindex)
    as (ins' & idx'' & Hf' & Hcases).
  rewrite Hf in Hf'. injection Hf' as <- <-.
  destruct Hcases as [[_ ->]|(_ & _ & Hcut)]; [done|].
  intros ->.
  assert (Hget : String.get 0 (drop (Z.to_nat index) rule) = Some c)
    by (by rewrite <- Hcut).
  rewrite get_drop, Nat.add_0_r in Hget.
  by apply (lacks_get _ _ _ Hlacks) in Hget.
Qed.

Lemma fetch_in_range rule index w :
  0 ≤ index < len rule →
  ∃ ins idx',
    fetched rule index = Some (ins, idx')
    ∧ fetch rule index w = Return (ins, idx') w
    ∧ (idx' = -1 ∨ index ≤ idx').
Proof.
  intros Hindex.
  destruct (fetched_spec rule index Hindex) as (ins & idx' & Hf & Hcases).
  exists ins, idx'. split; [done|]. split; [by rewrite fetch_fetched, Hf|].
  destruct Hcases as [[-> _]|(Hle & _)]; [by left|by right].
Qed.

(** The outcomes of one round. *)
Lemma step_outcomes self rule index t w ins idx' :
  fetch rule index w = Return (ins, idx') w →
  (step self rule index t w = Raise ValueError w)
  ∨ (∃ symbol value w1,
       extract_value ins w = Return (symbol, value) w1
       ∧ (symbol = "]" ↔ ins = "]")
       ∧ step self rule index t w
         = match dispatch self symbol value t w1 with
           | Return t' w2 => Return (idx' + 1, t') w2
           | Raise e w2 => Raise e w2
           | Timeout w2 => Timeout w2
           end).
Proof.
  intros Hfetch. rewrite (step_fetched _ _ _ _ _ _ _ Hfetch).
  destruct (extract_value_cases ins w)
    as [Herr|(symbol & value & w1 & Hex & _ & Hc)].
  - left. by rewrite (bind_Raise _ _ _ _ _ Herr).
  - right. exists symbol, value, w1. split; [done|]. split; [done|].
    rewrite (bind_Return _ _ _ _ _ Hex). simpl. unfold bind.
    by destruct (dispatch self symbol value t w1).
Qed.

Lemma while_loop_errors self rule fuel index t w e w' :
  0 ≤ index →
  while_loop fuel self rule index t w = Raise e w' →
  e = ValueError
  ∨ (e = IndexError ∧ ¬ lacks "]" rule)
  ∨ (e = AttributeError ∧ ¬ meshes_loaded self).
Proof.
  revert index t w. induction fuel as [|fuel IH]; intros index t w Hindex;
    rewrite while_loop_unfold;
    destruct (Z.ltb_spec index (len rule)) as [Hlt|Hge]; try done.
  destruct (fetch_in_range rule index w ltac:(lia))
    as (ins & idx' & Hf & Hfetch & Hidx).
  unfold bind.
  destruct (step_outcomes self rule index t w ins idx' Hfetch)
    as [->|(symbol & value & w1 & Hex & Hc & ->)].
  { intros Heq. injection Heq as <- _. by left. }
  destruct (dispatch self symbol value t w1) as [t1 w2|e2 w2|w2] eqn:Hd;
    [|intros Heq; injection Heq as <- _|done].
  - simpl. apply IH. lia.
  - destruct (dispatch_raises _ _ _ _ _ _ _ Hd)
      as [(-> & -> & _)|(-> & Hnone & _)].
    + right. left. split; [done|]. intros Hlacks.
      by apply (fetched_lacks "]" rule index ins idx' Hlacks ltac:(lia) Hf),
               Hc.
    + right. right. split; [done|]. intros Hloaded.
      by apply (Hloaded symbol).
Qed.

(** X13. What a drawing pass can raise.  It never raises [KeyError] (the
    lookup in [mesh_dict] is guarded) and [rule[index]] is never out of
    range: an error is the [ValueError] of [float], or the [IndexError]
    of a pop, and then some generation holds the character ["]"], or the
    [AttributeError] of [None.copy()], and then some key of [mesh_dict]
    is bound to [None]. *)
Theorem draw_errors (fuel : nat) (self : LSystem) (w : World) (e : exn)
    (w' : World) :
  draw fuel self w = Raise e w' →
  e = ValueError
  ∨ (e = IndexError ∧ ∃ rule, rule ∈ resultStrs self ∧ ¬ lacks "]" rule)
  ∨ (e = AttributeError ∧ ¬ meshes_loaded self).
Proof.
  unfold draw.
  rewrite (bind_Return _ _ w tt
             (mkWorld (rng w) (scene w ++ [StartMarker origin])))
    by reflexivity.
  generalize (mkWorld (rng w) (scene w ++ [StartMarker origin])) as w0.
  generalize initial_turtle as t.
  induction (resultStrs self) as [|rule strs IH]; intros t w0; [done|].
  simpl. unfold bind.
  destruct (while_loop fuel self rule 0 t w0) as [t1 w1|e1 w1|w1] eqn:Hloop;
    [|intros Heq; injection Heq as <- _|done].
  - intros Hrest.
    destruct (IH _ _ Hrest) as [->|[(-> & r & Hin & Hr)|(-> & Hno)]];
      [by left| |by right; right].
    right. left. split; [done|]. exists r. split; [by right|done].
  - destruct (while_loop_errors self rule fuel 0 t w0 e1 w1 ltac:(lia) Hloop)
      as [->|[(-> & Hr)|(-> & Hno)]]; [by left| |by right; right].
    right. left. split; [done|]. exists rule. split; [by left|done].
Qed.

(** *** A parameter list that is not closed, in general *)

Lemma loop_restart self rule (F : nat) :
  (∀ F', (F' < F)%nat →
     ∀ t w t' w', while_loop F' self rule 0 t w ≠ Return t' w') →
  ∀ wf index F1,
    (F1 ≤ F)%nat → 0 ≤ index →
    (Z.to_nat (len rule - index) ≤ wf)%nat →
    walk wf rule index = None →
    ∀ t w t' w', while_loop F1 self rule index t w ≠ Return t' w'.
Proof.
  intros Hrestart.
  induction wf as [|wf IH]; intros index F1 HF1 Hindex Hwf Hwalk t w t' w';
    simpl in Hwalk;
    destruct (Z.ltb_spec index (len rule)) as [Hlt|Hge];
    try done; [lia|].
  destruct (fetch_in_range rule index w ltac:(lia))
    as (ins & idx' & Hf & Hfetch & Hidx).
  rewrite Hf in Hwalk.
  rewrite while_loop_unfold.
  destruct (Z.ltb_spec index (len rule)); [|lia].
  destruct F1 as [|F1]; [done|].
  unfold bind.
  destruct (step_outcomes self rule index t w ins idx' Hfetch)
    as [->|(symbol & value & w1 & Hex & Hc & ->)]; [done|].
  destruct (dispatch self symbol value t w1) as [t1 w2|e2 w2|w2];
    [|done|done].
  simpl. destruct Hidx as [->|Hle].
  - apply Hrestart. lia.
  - destruct (Z.ltb_spec idx' 0); [lia|].
    apply IH; [lia|lia|lia|].
    by destruct (walk wf rule (idx' + 1)).
Qed.

Lemma while_loop_never_returns self rule fuel t w t' w' :
  instructions rule = None →
  while_loop fuel self rule 0 t w ≠ Return t' w'.
Proof.
  intros Hnone. revert t w t' w'.
  induction fuel as [fuel IH] using lt_wf_ind. intros t w t' w'.
  apply (loop_restart self rule fuel IH (String.length rule) 0 fuel);
    [lia|lia|unfold len; lia|done].
Qed.

(** X14. A string the walk does not get through (a parameter list that
    the loop opens is not closed) never lets the loop, or a drawing pass
    that holds the string, return: whatever the fuel, the outcome is an
    error or the fuel runs out. *)
Theorem unclosed_list_never_returns (self : LSystem) (rule : string) :
  instructions rule = None →
  (∀ fuel t w t' w', while_loop fuel self rule 0 t w ≠ Return t' w')
  ∧ (rule ∈ resultStrs self →
     ∀ fuel w t' w', draw fuel self w ≠ Return t' w').
Proof.
  intros Hnone. split.
  { intros. by apply while_loop_never_returns. }
  intros Hin fuel w t' w'. unfold draw.
  rewrite (bind_Return _ _ w tt
             (mkWorld (rng w) (scene w ++ [StartMarker origin])))
    by reflexivity.
  generalize (mkWorld (rng w) (scene w ++ [StartMarker origin])) as w0.
  generalize initial_turtle as t.
  induction (resultStrs self) as [|r strs IH]; intros t w0.
  { by apply elem_of_nil in Hin. }
  simpl. unfold bind.
  destruct (while_loop fuel self r 0 t w0) as [t1 w1|e1 w1|w1] eqn:Hloop;
    [|done|done].
  apply elem_of_cons in Hin as [<-|Hin].
  - by apply while_loop_never_returns in Hloop.
  - by apply IH.
Qed.

(** *** Grammars without parameters *)

Lemma parseable_chars (s : string) : forallb parseable (chars s) = true.
Proof. induction s as [|c s IH]; [done|]. simpl. by rewrite IH. Qed.

Lemma for_rules_balanced self fuel (strs : list string) t w :
  mesh_dict self !! "[" = None → mesh_dict self !! "]" = None →
  meshes_loaded self →
  Forall (λ g, lacks "(" g ∧ balanced (chars g)
               ∧ (String.length g ≤ fuel)%nat) strs →
  ∃ t' w', for_rules fuel self strs t w = Return t' w'
           ∧ stack t' = stack t.
Proof.
  intros Hopen Hclose Hloaded Hall. revert t w.
  induction Hall as [|g strs (Hpar & Hbal & Hfuel) _ IH]; intros t w.
  { by exists t, w. }
  simpl.
  destruct (interpret_balanced self (chars g) t w Hopen Hclose Hloaded
              (parseable_chars g) Hbal) as (t1 & w1 & Hrun & Hstack).
  rewrite <- (while_loop_instructions _ fuel g _ _ _
                (instructions_chars g Hpar) Hfuel) in Hrun.
  rewrite (bind_Return _ _ _ _ _ Hrun).
  destruct (IH t1 w1) as (t' & w' & Hrest & Hst).
  exists t', w'. split; [|congruence]. done.
Qed.

Lemma draw_balanced self fuel w :
  mesh_dict self !! "[" = None → mesh_dict self !! "]" = None →
  meshes_loaded self →
  Forall (λ g, lacks "(" g ∧ balanced (chars g)
               ∧ (String.length g ≤ fuel)%nat) (resultStrs self) →
  ∃ t' w' cmds,
    draw fuel self w = Return t' w'
    ∧ stack t' = []
    ∧ scene w' = scene w ++ StartMarker origin :: cmds
    ∧ Forall (λ c, is_marker c = false) cmds.
Proof.
  intros Hopen Hclose Hloaded Hall. unfold draw.
  rewrite (bind_Return _ _ w tt
             (mkWorld (rng w) (scene w ++ [StartMarker origin])))
    by reflexivity.
  destruct (for_rules_balanced self fuel _ initial_turtle
              (mkWorld (rng w) (scene w ++ [StartMarker origin]))
              Hopen Hclose Hloaded Hall) as (t' & w' & Hrun & Hstack).
  destruct (grows_for_rules fuel self (resultStrs self) initial_turtle
              (mkWorld (rng w) (scene w ++ [StartMarker origin])))
    as (cmds & Hscene & Hcmds).
  rewrite Hrun in Hscene. simpl in Hscene.
  exists t', w', cmds. split; [done|]. split; [done|].
  split; [|done]. rewrite Hscene. by rewrite <- app_assoc.
Qed.

(** X16. A grammar without parameters and with balanced brackets always
    draws.  When neither the start string nor a rule body holds an
    opening parenthesis, brackets are balanced in both, no rule rewrites
    a bracket, no bracket is registered as a mesh and no key of
    [mesh_dict] is bound to [None], then construction followed by a
    drawing pass returns for every [numIters] (given fuel for the
    longest generation), with an empty stack at the end, one start
    marker, and no other marker. *)
Theorem parameter_free_grammar_draws (fuel : nat) (numIters : Z)
    (startStr : string) (rules : gmap string string)
    (step_length default_angle : Float)
    (mesh_dict : gmap string (option Mesh))
    (random_seed : option Z) (entropy : Rng) (w : World) :
  mesh_dict !! "[" = None → mesh_dict !! "]" = None →
  (∀ k, mesh_dict !! k ≠ Some None) →
  rules !! "[" = None → rules !! "]" = None →
  (∀ k v, rules !! k = Some v → lacks "(" v ∧ balanced (chars v)) →
  lacks "(" startStr → balanced (chars startStr) →
  Forall (λ g, (String.length g ≤ fuel)%nat)
    (generate numIters startStr rules) →
  ∃ t' w' cmds,
    run fuel numIters startStr rules step_length default_angle mesh_dict
      random_seed entropy w = Return t' w'
    ∧ stack t' = []
    ∧ scene w' = scene w ++ StartMarker origin :: cmds
    ∧ Forall (λ c, is_marker c = false) cmds.
Proof.
  intros Hmo Hmc Hloaded Hro Hrc Hbody Hstart Hbal Hfuel.
  assert (Hall : Forall (λ g, lacks "(" g ∧ balanced (chars g)
                             ∧ (String.length g ≤ fuel)%nat)
                   (generate numIters startStr rules)).
  { assert (Hgen : Forall (λ g, lacks "(" g ∧ balanced (chars g))
                     (generate numIters startStr rules)).
    { apply generate_Forall; [done|]. intros s [Hs1 Hs2]. split.
      - apply replaceProcess_lacks; [|done]. intros k v Hkv.
        by apply (Hbody k v).
      - unfold balanced. rewrite replaceProcess_nesting; try done.
        intros k v Hkv. by apply (Hbody k v). }
    rewrite Forall_forall in Hgen, Hfuel. apply Forall_forall.
    intros g Hg. destruct (Hgen g Hg). split; [done|]. split; [done|].
    by apply Hfuel. }
  unfold run, bind, LSystem_init.
  destruct (draw_balanced
              (mkLSystem numIters startStr rules step_length default_angle
                 (generate numIters startStr rules) mesh_dict)
              fuel
              (mkWorld
                 match random_seed with
                 | Some n => seed_rng n
                 | None => entropy
                 end (scene w)) Hmo Hmc Hloaded Hall)
    as (t' & w' & cmds & Hrun & Hstack & Hscene & Hcmds).
  by exists t', w', cmds.
Qed.

(** *** Symbols without a meaning *)

Lemma interpret_skipped self (rule : string) t w :
  Forall (λ ch, (mesh_dict self !! ch = None)
                ∧ (ch ∉ ["F"; "f"; "["; "]"]) ∧ (ch ∉ rotation_symbols))
    (chars rule) →
  interpret self (chars rule) t w = Return t w.
Proof.
  induction rule as [|c rule IH]; intros Hall; [done|].
  simpl in Hall. apply Forall_cons in Hall as [(Hreg & Hcmd & Hrot) Hall].
  change (chars (String c rule)) with (chr c :: chars rule).
  cbn [interpret].
  rewrite (bind_Return _ _ w (chr c, None) w) by reflexivity.
  rewrite (bind_Return _ _ _ _ _
             (dispatch_unknown self (chr c) None t w Hreg Hcmd Hrot)).
  by apply IH.
Qed.

(** X17. Symbols without a meaning are passed over in silence.  On a
    string without ["("] whose characters are neither registered in
    [mesh_dict], nor [F], [f] or a bracket, nor a key of [rotations]
    (the non-terminals of a grammar, digits, commas, closing
    parentheses), the loop returns the turtle and the world exactly as
    they were. *)
Theorem meaningless_symbols_are_skipped (self : LSystem) (rule : string)
    (fuel : nat) (t : Turtle) (w : World) :
  lacks "(" rule →
  Forall (λ ch, (mesh_dict self !! ch = None)
                ∧ (ch ∉ ["F"; "f"; "["; "]"]) ∧ (ch ∉ rotation_symbols))
    (chars rule) →
  (String.length rule ≤ fuel)%nat →
  while_loop fuel self rule 0 t w = Return t w.
Proof.
  intros Hlacks Hall Hfuel.
  rewrite (while_loop_instructions _ _ _ _ _ _
             (instructions_chars rule Hlacks) Hfuel).
  by apply interpret_skipped.
Qed.

End ExtraProperties.

(** * Examples on the grid host *)

#[local] Abbreviation turtle := (mkTurtle (H:=Grid.host)).
#[local] Abbreviation world := (mkWorld (H:=Grid.host)).
#[local] Abbreviation line := (LineSegment (H:=Grid.host)).
#[local] Abbreviation marker := (StartMarker (H:=Grid.host)).
#[local] Abbreviation origin0 := (origin (H:=Grid.host)).
#[local] Abbreviation turtle0 := (initial_turtle (H:=Grid.host)).

(** On the grid every key of the registry is bound to a mesh. *)
Lemma registry_loaded numIters startStr rules step_length default_angle :
  meshes_loaded (H:=Grid.host)
    (Grid.lsystem numIters startStr rules step_length default_angle
       Grid.registry).
Proof.
  intros k Hk. unfold Grid.lsystem, Grid.registry in Hk. simpl in Hk.
  apply lookup_insert_Some in Hk as [[_ Hk]|[_ Hk]]; [done|].
  apply lookup_insert_Some in Hk as [[_ Hk]|[_ Hk]]; [done|].
  by rewrite lookup_empty in Hk.
Qed.

(** The quarter turns of the grid keep the coordinate along their axis. *)
Lemma grid_iter_rot_x (n : nat) (v : Vector Z) :
  vx (Nat.iter n Grid.rot_x v) = vx v.
Proof. induction n as [|n IH]; [done|]. simpl. exact IH. Qed.

Lemma grid_iter_rot_y (n : nat) (v : Vector Z) :
  vy (Nat.iter n Grid.rot_y v) = vy v.
Proof. induction n as [|n IH]; [done|]. simpl. exact IH. Qed.

Lemma grid_iter_rot_z (n : nat) (v : Vector Z) :
  vz (Nat.iter n Grid.rot_z v) = vz v.
Proof. induction n as [|n IH]; [done|]. simpl. exact IH. Qed.

Lemma grid_world_axes : rotates_about_world_axes (H:=Grid.host).
Proof.
  split; [|split]; intros a v; simpl; unfold Grid.rotate; simpl;
    change (Grid.turns (id 0)) with 0%nat; simpl.
  - apply grid_iter_rot_x.
  - apply grid_iter_rot_y.
  - apply grid_iter_rot_z.
Qed.

(** They are the quarter turns about the axes of the world. *)
Lemma grid_quarter_turns (v : Vector Z) :
  Grid.rot_x v = Grid.quarter_turn_about (mkVector 1 0 0) v
  ∧ Grid.rot_y v = Grid.quarter_turn_about (mkVector 0 1 0) v
  ∧ Grid.rot_z v = Grid.quarter_turn_about (mkVector 0 0 1) v.
Proof.
  destruct v as [x y z].
  unfold Grid.rot_x, Grid.rot_y, Grid.rot_z, Grid.quarter_turn_about,
    Grid.cross, Grid.dot; simpl.
  repeat split; f_equal; lia.
Qed.

Lemma forward_motion_witness :
  mesh_dict (Grid.single "F(2)+[F(1)]F(3)") !! "F" = None
  ∧ mesh_dict (Grid.single "F(2)+[F(1)]F(3)") !! "f" = None
  ∧ while_loop (H:=Grid.host) 6 (Grid.single "F(2)+[F(1)]F(3)") "F(2)+[F(1)]F(3)" 0
      turtle0 Grid.empty_world
    = Return (turtle (mkVector 0 5 0) (mkVector 0 1 0) [])
        (world 7
           [line (mkVector 0 0 0) (mkVector 0 2 0);
            line (mkVector 0 2 0) (mkVector 0 3 0);
            line (mkVector 0 2 0) (mkVector 0 5 0)]).
Proof.
  split; [reflexivity|]. split; [reflexivity|].
  refine (proj1
            (proj2 (proj2 (proj2
               (forward_motion (H:=Grid.host) (Grid.single "F(2)+[F(1)]F(3)")
                  eq_refl eq_refl)))
               2 1 3 0%nat Grid.empty_world _ eq_refl eq_refl eq_refl eq_refl
               eq_refl eq_refl)).
  repeat constructor.
Defined.

(** C3 as stated fails.  A roll turns about the turtle's own heading and
    so leaves the heading where it is; [<] with 90 degrees turns the
    heading (1,0,0) to (0,0,-1), the quarter turn about the y axis of the
    world.  A yaw turns about an axis perpendicular to the heading, and a
    quarter of it moves every heading; [+] with 90 degrees leaves the
    heading (0,0,1) where it is, since it turns about the z axis of the
    world.  So after the pitch of ["&(90)"] the yaw of ["+(90)"] is lost:
    ["&(90)+(90)F"] draws the segment that ["&(90)F"] draws. *)
Lemma rotation_local_axis_counterexample :
  dispatch (H:=Grid.host) (Grid.single "<") "<" (Some 90)
    (turtle origin0 (mkVector 1 0 0) []) Grid.empty_world
  = Return (turtle origin0 (mkVector 0 0 (-1)) []) Grid.empty_world
  ∧ Grid.quarter_turn_about (mkVector 0 1 0) (mkVector 1 0 0)
    = mkVector 0 0 (-1)
  ∧ Grid.quarter_turn_about (mkVector 1 0 0) (mkVector 1 0 0)
    = mkVector 1 0 0
  ∧ dispatch (H:=Grid.host) (Grid.single "+") "+" (Some 90)
      (turtle origin0 (mkVector 0 0 1) []) Grid.empty_world
    = Return (turtle origin0 (mkVector 0 0 1) []) Grid.empty_world
  ∧ (∀ up : Vector Z,
       Grid.dot up (mkVector 0 0 1) = 0 →
       Grid.quarter_turn_about up (mkVector 0 0 1) ≠ mkVector 0 0 1)
  ∧ while_loop (H:=Grid.host) 3 (Grid.single "&(90)+(90)F") "&(90)+(90)F" 0
      turtle0 Grid.empty_world
    = Return (turtle (mkVector 0 0 1) (mkVector 0 0 1) [])
        (world 7 [line (mkVector 0 0 0) (mkVector 0 0 1)])
  ∧ while_loop (H:=Grid.host) 2 (Grid.single "&(90)F") "&(90)F" 0
      turtle0 Grid.empty_world
    = Return (turtle (mkVector 0 0 1) (mkVector 0 0 1) [])
        (world 7 [line (mkVector 0 0 0) (mkVector 0 0 1)]).
Proof.
  split; [reflexivity|]. split; [reflexivity|]. split; [reflexivity|].
  split; [reflexivity|]. split; [|split; reflexivity].
  intros [a b c] Hdot Heq.
  unfold Grid.quarter_turn_about, Grid.cross, Grid.dot in *. simpl in *.
  injection Heq as _ _ Hz. nia.
Qed.

Lemma rotation_semantics_witness :
  Forall (λ symbol, mesh_dict (Grid.single "+") !! symbol = None)
    rotation_symbols
  ∧ rotates_about_world_axes (H:=Grid.host)
  ∧ dispatch (H:=Grid.host) (Grid.single "+") "+" (Some 90) turtle0
      Grid.empty_world
    = Return (turtle origin0 (mkVector (-1) 0 0) []) Grid.empty_world
  ∧ ∀ (t' : @Turtle Grid.host) (w' : @World Grid.host),
      dispatch (H:=Grid.host) (Grid.single "+") "<" (Some 90)
        (turtle origin0 (mkVector 1 2 3) []) Grid.empty_world
      = Return t' w' →
      vy (direction t') = 2.
Proof.
  assert (Hreg : Forall
            (λ symbol, mesh_dict (Grid.single "+") !! symbol = None)
            rotation_symbols) by repeat constructor.
  split; [exact Hreg|]. split; [exact grid_world_axes|]. split.
  - exact (proj1 (rotation_semantics (H:=Grid.host) (Grid.single "+")
                    (Some 90) turtle0 Grid.empty_world Hreg)).
  - intros t' w' Hd.
    destruct (rotation_semantics (H:=Grid.host) (Grid.single "+") (Some 90)
                (turtle origin0 (mkVector 1 2 3) []) Grid.empty_world Hreg)
      as (_ & _ & _ & _ & _ & _ & _ & _ & Haxes).
    destruct (Haxes grid_world_axes "<" t' w' Hd) as (_ & Hy & _).
    apply Hy. apply list_elem_of_here.
Defined.


Lemma draw_replays_every_generation_witness :
  resultStrs (Grid.lsystem 1 "F" (<["F" := "F+F"]> ∅) 1 90 Grid.registry)
  = [] ++ "F" :: ["F+F"]
  ∧ draw (H:=Grid.host) 3 (Grid.lsystem 1 "F" (<["F" := "F+F"]> ∅) 1 90 Grid.registry)
      Grid.empty_world
    = bind
        (while_loop 3
           (Grid.lsystem 1 "F" (<["F" := "F+F"]> ∅) 1 90 Grid.registry)
           "F" 0 turtle0)
        (for_rules 3
           (Grid.lsystem 1 "F" (<["F" := "F+F"]> ∅) 1 90 Grid.registry)
           ["F+F"])
        (world 7 [marker origin0]).
Proof.
  split; [reflexivity|].
  exact (proj1 (proj2 (proj2
           (draw_replays_every_generation (H:=Grid.host) 3
              (Grid.lsystem 1 "F" (<["F" := "F+F"]> ∅) 1 90 Grid.registry)
              Grid.empty_world)))
           [] "F" ["F+F"] turtle0 (world 7 [marker origin0])
           eq_refl eq_refl).
Defined.

Lemma seeded_runs_agree_witness :
  scene (world 7 []) = scene (world 99 [])
  ∧ run (H:=Grid.host) 20 2 "P" (<["P" := "F(1,9)[+P]P"]> ∅) 1 90
      Grid.registry (Some 42) 1 (world 7 [])
    = run (H:=Grid.host) 20 2 "P" (<["P" := "F(1,9)[+P]P"]> ∅) 1 90
        Grid.registry (Some 42) 2 (world 99 []).
Proof.
  split; [reflexivity|].
  exact (seeded_runs_agree (H:=Grid.host) 20 2 "P"
           (<["P" := "F(1,9)[+P]P"]> ∅) 1 90 Grid.registry 42 1 2
           (world 7 []) (world 99 []) eq_refl).
Defined.

Lemma pop_on_empty_stack_witness :
  mesh_dict (Grid.single "]") !! "]" = None
  ∧ resultStrs (Grid.single "]") = ["]"]
  ∧ draw (H:=Grid.host) 1 (Grid.single "]") Grid.empty_world
    = Raise IndexError (world 7 [marker origin0]).
Proof.
  split; [reflexivity|]. split; [reflexivity|].
  exact (proj2 (proj2 (pop_on_empty_stack (H:=Grid.host) (Grid.single "]")
                         eq_refl))
           0%nat Grid.empty_world eq_refl).
Defined.

Lemma unterminated_parameter_list_loops_witness :
  (mesh_dict (Grid.single "F(2") !! "" = None
   ∧ resultStrs (Grid.single "F(2") = ["F(2"]
   ∧ draw (H:=Grid.host) 1000 (Grid.single "F(2") Grid.empty_world
     = Timeout (world 7 [marker origin0]))
  ∧ ("2" ≠ ""
     ∧ first_index ")" "F(2" = None
     ∧ mesh_dict (Grid.single "F(2") !! "" ≠ Some None
     ∧ ∃ w' : @World Grid.host,
         while_loop (H:=Grid.host) 1000 (Grid.single "F(2") "F(2" 0 turtle0
           Grid.empty_world = Timeout w')
  ∧ (mesh_dict (Grid.lsystem 0 "F(2" ∅ 1 30 (<["" := None]> ∅)) !! ""
     = Some None
     ∧ while_loop (H:=Grid.host) 1
         (Grid.lsystem 0 "F(2" ∅ 1 30 (<["" := None]> ∅)) "F(2" 0 turtle0
         Grid.empty_world
       = Raise AttributeError Grid.empty_world).
Proof.
  split; [|split].
  - split; [reflexivity|]. split; [reflexivity|].
    exact (proj2 (proj2 (unterminated_parameter_list_loops (H:=Grid.host)
                           (Grid.single "F(2")))
             eq_refl eq_refl 1000%nat Grid.empty_world).
  - split; [discriminate|]. split; [reflexivity|]. split; [discriminate|].
    refine (proj1 (proj1 (unterminated_parameter_list_loops (H:=Grid.host)
                            (Grid.single "F(2"))
                     "F"%char "2" _ eq_refl) _
              1000%nat turtle0 Grid.empty_world); discriminate.
  - split; [reflexivity|].
    refine (proj2 (proj1 (unterminated_parameter_list_loops (H:=Grid.host)
                            (Grid.lsystem 0 "F(2" ∅ 1 30
                               (<["" := None]> ∅)))
                     "F"%char "2" _ eq_refl) eq_refl
              0%nat turtle0 Grid.empty_world); discriminate.
Defined.

(** C9 as stated fails: construction with [numIters = -1] returns. *)
Lemma negative_numIters_counterexample :
  LSystem_init (H:=Grid.host) (-1) "A" (<["A" := "AB"]> ∅) 1 30 Grid.registry
    (Some 0) 5 Grid.empty_world
  = Return
      (mkLSystem (H:=Grid.host) (-1) "A" (<["A" := "AB"]> ∅) 1 30 ["A"] Grid.registry)
      (world 0 []).
Proof. reflexivity. Qed.

Lemma negative_numIters_constructs_witness :
  -3 < 0
  ∧ ∃ self w',
      LSystem_init (H:=Grid.host) (-3) "A" (<["A" := "AB"]> ∅) 1 30
        Grid.registry None 5 Grid.empty_world = Return self w'
      ∧ resultStrs self = ["A"]
      ∧ resultStrs self = generate 0 "A" (<["A" := "AB"]> ∅).
Proof.
  split; [lia|].
  exact (negative_numIters_constructs (H:=Grid.host) (-3) "A"
           (<["A" := "AB"]> ∅) 1 30 Grid.registry None 5 Grid.empty_world
           ltac:(lia)).
Defined.



(** * Further examples on the grid host *)

#[local] Abbreviation place := (InstancePlacement (H:=Grid.host)).

Lemma unruled_string_is_fixed_witness :
  Forall (λ ch, (<["A" := "AB"]> ∅ : gmap string string) !! ch = None)
    (chars "F+F")
  ∧ replaceProcess (<["A" := "AB"]> ∅) "F+F" = "F+F".
Proof.
  refine ((λ Hnone, conj Hnone
             (proj1 (unruled_string_is_fixed (<["A" := "AB"]> ∅) "F+F" 2
                       Hnone))) _).
  repeat constructor.
Defined.

Lemma long_key_never_fires_witness :
  String.length "AB" ≠ 1%nat
  ∧ replaceProcess (<["AB" := "X"]> (<["A" := "AB"]> ∅)) "ABAB"
    = replaceProcess (<["A" := "AB"]> ∅) "ABAB".
Proof.
  refine ((λ Hlen, conj Hlen
             (proj1 (long_key_never_fires (<["A" := "AB"]> ∅) "AB" "X" Hlen)
                "ABAB")) _).
  simpl. lia.
Defined.

Lemma generate_extends_witness :
  0 ≤ 2 ∧ 0 ≤ 1
  ∧ generate (2 + 1) "A" (<["A" := "AB"]> (<["B" := "A"]> ∅))
    = generate 2 "A" (<["A" := "AB"]> (<["B" := "A"]> ∅))
      ++ [replaceProcess (<["A" := "AB"]> (<["B" := "A"]> ∅))
            (default "A"
               (last (generate 2 "A" (<["A" := "AB"]> (<["B" := "A"]> ∅)))))].
Proof.
  refine ((λ (H2 : 0 ≤ 2) (H1 : 0 ≤ 1), conj H2 (conj H1
             (proj1 (generate_extends (<["A" := "AB"]> (<["B" := "A"]> ∅))
                       "A" 2 1 H2 H1)))) _ _); lia.
Defined.

Lemma generations_never_shrink_witness :
  (∀ k v, (<["A" := "AB"]> (<["B" := "A"]> ∅) : gmap string string) !! k
          = Some v → v ≠ "")
  ∧ (String.length "ABA"
     ≤ String.length
         (replaceProcess (<["A" := "AB"]> (<["B" := "A"]> ∅)) "ABA"))%nat.
Proof.
  refine ((λ Hbody, conj Hbody
             (proj1 (generations_never_shrink
                       (<["A" := "AB"]> (<["B" := "A"]> ∅)) "A" 3 Hbody)
                "ABA")) _).
  intros k v Hkv.
  apply lookup_insert_Some in Hkv as [[_ <-]|[_ Hkv]]; [done|].
  apply lookup_insert_Some in Hkv as [[_ <-]|[_ Hkv]]; [done|].
  by rewrite lookup_empty in Hkv.
Defined.

Lemma instructions_join_witness :
  instructions "F(2)+[F(1)]F(3)"
  = Some ["F(2)"; "+"; "["; "F(1)"; "]"; "F(3)"]
  ∧ join ["F(2)"; "+"; "["; "F(1)"; "]"; "F(3)"] = "F(2)+[F(1)]F(3)".
Proof.
  refine ((λ (Htoks : instructions "F(2)+[F(1)]F(3)"
                       = Some ["F(2)"; "+"; "["; "F(1)"; "]"; "F(3)"]),
             conj Htoks
             (proj1 (instructions_join "F(2)+[F(1)]F(3)" _ Htoks))) _).
  reflexivity.
Defined.

Lemma instructions_without_parenthesis_witness :
  lacks "(" "F[+F]F"
  ∧ instructions "F[+F]F" = Some ["F"; "["; "+"; "F"; "]"; "F"].
Proof.
  refine ((λ Hlacks, conj Hlacks
             (proj1 (instructions_without_parenthesis "F[+F]F" Hlacks))) _).
  reflexivity.
Defined.

Lemma extract_value_outcomes_witness :
  parseable (H:=Grid.host) "F(1.2.3)" = false
  ∧ extract_value (H:=Grid.host) "F(1.2.3)" Grid.empty_world
    = Raise ValueError Grid.empty_world.
Proof.
  refine ((λ Hp, conj Hp
             (proj1 (extract_value_outcomes (H:=Grid.host) "F(1.2.3)"
                       Grid.empty_world) Hp)) _).
  reflexivity.
Defined.

Lemma one_object_per_drawing_instruction_witness :
  instructions "F[+F]PF(3)" = Some ["F"; "["; "+"; "F"; "]"; "P"; "F(3)"]
  ∧ ∃ cmds,
      [line (mkVector 0 0 0) (mkVector 0 1 0);
       line (mkVector 0 1 0) (mkVector 0 2 0);
       place "P" "core" (mkVector 0 1 0) (mkEuler 36 93 178);
       line (mkVector 0 1 0) (mkVector 0 4 0)] = [] ++ cmds
      ∧ count is_line cmds
        = count (draws_line (Grid.single "F[+F]PF(3)"))
            ["F"; "["; "+"; "F"; "]"; "P"; "F(3)"]
      ∧ count is_placement cmds
        = count (places (Grid.single "F[+F]PF(3)"))
            ["F"; "["; "+"; "F"; "]"; "P"; "F(3)"]
      ∧ length cmds = (count is_line cmds + count is_placement cmds)%nat.
Proof.
  refine ((λ (Htoks : instructions "F[+F]PF(3)"
                       = Some ["F"; "["; "+"; "F"; "]"; "P"; "F(3)"]),
             conj Htoks
             (one_object_per_drawing_instruction (H:=Grid.host)
                (Grid.single "F[+F]PF(3)") "F[+F]PF(3)"
                ["F"; "["; "+"; "F"; "]"; "P"; "F(3)"] 11 turtle0
                (turtle (mkVector 0 4 0) (mkVector 0 1 0) [])
                Grid.empty_world
                (world 712265938
                   [line (mkVector 0 0 0) (mkVector 0 1 0);
                    line (mkVector 0 1 0) (mkVector 0 2 0);
                    place "P" "core" (mkVector 0 1 0) (mkEuler 36 93 178);
                    line (mkVector 0 1 0) (mkVector 0 4 0)])
                Htoks _ _)) _).
  - simpl. lia.
  - reflexivity.
  - reflexivity.
Defined.

Lemma loop_ends_within_length_witness :
  params_closed "F(2)+[F(1)]F(3)" = true
  ∧ (String.length "F(2)+[F(1)]F(3)" ≤ 40)%nat
  ∧ while_loop (H:=Grid.host) 40 (Grid.single "F(2)+[F(1)]F(3)")
      "F(2)+[F(1)]F(3)" 0 turtle0 Grid.empty_world
    = while_loop (H:=Grid.host) (String.length "F(2)+[F(1)]F(3)")
        (Grid.single "F(2)+[F(1)]F(3)") "F(2)+[F(1)]F(3)" 0 turtle0
        Grid.empty_world.
Proof.
  refine ((λ Hclosed Hfuel, conj Hclosed (conj Hfuel
             (proj1 (loop_ends_within_length (H:=Grid.host)
                       (Grid.single "F(2)+[F(1)]F(3)") "F(2)+[F(1)]F(3)" 40
                       turtle0 Grid.empty_world Hclosed Hfuel)))) _ _).
  - reflexivity.
  - simpl. lia.
Defined.

Lemma open_branches_stay_on_stack_witness :
  instructions "F[[F]" = Some ["F"; "["; "["; "F"; "]"]
  ∧ meshes_loaded (H:=Grid.host) (Grid.single "F[[F]")
  ∧ nesting 0 ["F"; "["; "["; "F"; "]"] = Some 1%nat
  ∧ ∃ (t' : @Turtle Grid.host) (w' : @World Grid.host) above,
      while_loop (H:=Grid.host) 5 (Grid.single "F[[F]") "F[[F]" 0 turtle0
        Grid.empty_world = Return t' w'
      ∧ stack t' = above ++ stack turtle0 ∧ length above = 1%nat.
Proof.
  refine ((λ (Htoks : instructions "F[[F]" = Some ["F"; "["; "["; "F"; "]"])
              (Hnest : nesting 0 ["F"; "["; "["; "F"; "]"] = Some 1%nat),
             conj Htoks (conj (registry_loaded _ _ _ _ _) (conj Hnest
             (open_branches_stay_on_stack (H:=Grid.host)
                (Grid.single "F[[F]") "F[[F]" ["F"; "["; "["; "F"; "]"] 1 5
                turtle0 Grid.empty_world
                eq_refl eq_refl (registry_loaded _ _ _ _ _) Htoks _ eq_refl
                Hnest)))) _ _).
  - simpl. lia.
  - reflexivity.
  - reflexivity.
Defined.

Lemma pop_below_stack_raises_witness :
  instructions "F]F" = Some ["F"; "]"; "F"]
  ∧ meshes_loaded (H:=Grid.host) (Grid.single "F]F")
  ∧ nesting (length (stack turtle0)) ["F"; "]"; "F"] = None
  ∧ ∃ w' : @World Grid.host,
      while_loop (H:=Grid.host) 3 (Grid.single "F]F") "F]F" 0 turtle0
        Grid.empty_world = Raise IndexError w'
      ∧ extends Grid.empty_world w'.
Proof.
  refine ((λ (Htoks : instructions "F]F" = Some ["F"; "]"; "F"])
              (Hnest : nesting (length (stack turtle0)) ["F"; "]"; "F"]
                       = None),
             conj Htoks (conj (registry_loaded _ _ _ _ _) (conj Hnest
             (pop_below_stack_raises (H:=Grid.host)
                (Grid.single "F]F") "F]F" ["F"; "]"; "F"] 3 turtle0
                Grid.empty_world
                eq_refl eq_refl (registry_loaded _ _ _ _ _) Htoks _ eq_refl
                Hnest)))) _ _).
  - simpl. lia.
  - reflexivity.
  - reflexivity.
Defined.

Lemma draw_errors_witness :
  draw (H:=Grid.host) 1
    (Grid.lsystem 0 "P" ∅ 1 30 (<["P" := None]> (<["L" := None]> ∅)))
    Grid.empty_world
  = Raise AttributeError (world 7 [marker origin0])
  ∧ (AttributeError = ValueError
     ∨ (AttributeError = IndexError
        ∧ ∃ rule,
            rule ∈ resultStrs
                     (Grid.lsystem 0 "P" ∅ 1 30
                        (<["P" := None]> (<["L" := None]> ∅)))
            ∧ ¬ lacks "]" rule)
     ∨ (AttributeError = AttributeError
        ∧ ¬ meshes_loaded (H:=Grid.host)
              (Grid.lsystem 0 "P" ∅ 1 30
                 (<["P" := None]> (<["L" := None]> ∅))))).
Proof.
  refine ((λ Hraise, conj Hraise
             (draw_errors (H:=Grid.host) 1
                (Grid.lsystem 0 "P" ∅ 1 30
                   (<["P" := None]> (<["L" := None]> ∅)))
                Grid.empty_world AttributeError (world 7 [marker origin0])
                Hraise)) _).
  reflexivity.
Defined.

Lemma unclosed_list_never_returns_witness :
  instructions "FF(2" = None
  ∧ while_loop (H:=Grid.host) 50 (Grid.single "FF(2") "FF(2" 0 turtle0
      Grid.empty_world
    ≠ Return turtle0 Grid.empty_world.
Proof.
  refine ((λ Hnone, conj Hnone
             (proj1 (unclosed_list_never_returns (H:=Grid.host)
                       (Grid.single "FF(2") "FF(2" Hnone)
                50%nat turtle0 Grid.empty_world turtle0 Grid.empty_world))
            _).
  reflexivity.
Defined.

Lemma rewriting_preserves_nesting_witness :
  (<["F" := "F[+F]F"]> ∅ : gmap string string) !! "[" = None
  ∧ (<["F" := "F[+F]F"]> ∅ : gmap string string) !! "]" = None
  ∧ (∀ k v, (<["F" := "F[+F]F"]> ∅ : gmap string string) !! k = Some v →
            balanced (chars v))
  ∧ nesting 0 (chars (replaceProcess (<["F" := "F[+F]F"]> ∅) "[F]F]"))
    = nesting 0 (chars "[F]F]").
Proof.
  refine ((λ Hbody, conj eq_refl (conj eq_refl (conj Hbody
             (proj1 (rewriting_preserves_nesting (<["F" := "F[+F]F"]> ∅)
                       "F" 1 eq_refl eq_refl Hbody) "[F]F]" 0%nat)))) _).
  intros k v Hkv.
  apply lookup_insert_Some in Hkv as [[_ <-]|[_ Hkv]]; [reflexivity|].
  by rewrite lookup_empty in Hkv.
Defined.

Lemma parameter_free_grammar_draws_witness :
  (∀ k, Grid.registry !! k ≠ Some None)
  ∧ (∀ k v, (<["F" := "F[+F]F[-F]F"]> ∅ : gmap string string) !! k = Some v →
          lacks "(" v ∧ balanced (chars v))
  ∧ Forall (λ g, (String.length g ≤ 61)%nat)
      (generate 2 "F" (<["F" := "F[+F]F[-F]F"]> ∅))
  ∧ ∃ (t' : @Turtle Grid.host) (w' : @World Grid.host) cmds,
      run (H:=Grid.host) 61 2 "F" (<["F" := "F[+F]F[-F]F"]> ∅) 1 90
        Grid.registry (Some 3) 0 Grid.empty_world = Return t' w'
      ∧ stack t' = []
      ∧ scene w' = scene Grid.empty_world ++ marker origin0 :: cmds
      ∧ Forall (λ c, is_marker c = false) cmds.
Proof.
  refine ((λ Hbody Hfuel, conj (registry_loaded 0 "" ∅ 0 0)
             (conj Hbody (conj Hfuel
             (parameter_free_grammar_draws (H:=Grid.host) 61 2 "F"
                (<["F" := "F[+F]F[-F]F"]> ∅) 1 90 Grid.registry (Some 3) 0
                Grid.empty_world eq_refl eq_refl
                (registry_loaded 0 "" ∅ 0 0) eq_refl eq_refl Hbody
                eq_refl eq_refl Hfuel)))) _ _).
  - intros k v Hkv.
    apply lookup_insert_Some in Hkv as [[_ <-]|[_ Hkv]];
      [split; reflexivity|].
    by rewrite lookup_empty in Hkv.
  - repeat constructor.
Defined.

Lemma meaningless_symbols_are_skipped_witness :
  lacks "(" "GAB,9)"
  ∧ (String.length "GAB,9)" ≤ 6)%nat
  ∧ while_loop (H:=Grid.host) 6 (Grid.single "GAB,9)") "GAB,9)" 0 turtle0
      Grid.empty_world
    = Return turtle0 Grid.empty_world.
Proof.
  refine ((λ Hlacks Hfuel, conj Hlacks (conj Hfuel
             (meaningless_symbols_are_skipped (H:=Grid.host)
                (Grid.single "GAB,9)") "GAB,9)" 6 turtle0 Grid.empty_world
                Hlacks _ Hfuel))) _ _).
  - repeat constructor;
      (intros Hin; unfold rotation_symbols in Hin;
       repeat (apply elem_of_cons in Hin as [Hin|Hin]; [discriminate|]);
       by apply elem_of_nil in Hin).
  - reflexivity.
  - simpl. lia.
Defined.
